(** * Ring: a capacity-bounded, double-ended buffer over [std::deque]

  Shallow embedding of [src/ring.h] (the variant with blocking pops) and of
  [src/include/ring.h] (the variant without them).  The two files have the
  same text for every member function except [resize]; the blocking pops
  exist in [src/ring.h] only.

  Modelling choices.
  - A [std::deque<T>] is the list of its elements, front first.
  - [Ring] derives from the deque and adds the field [_capacity]; a ring is
    the record of both.  [_capacity] is a [size_t]; the code only assigns
    and compares it (no arithmetic), so it is a [nat] here.
  - Every member function runs under the ring's mutex, so a call is one
    atomic state transformer.  [_cv.notify_one()] changes no data.
  - [swap] and [operator=] take a second ring by reference and compare the
    two addresses; rings therefore live in a store indexed by address.
  - An iterator range is what the deque reads from it together with what
    [std::distance] counts afterwards; the two agree for forward iterators
    and need not for single-pass ones.
  - A blocking pop releases the mutex while it waits; what the other threads
    do meanwhile is an input of the model (a list of wake-ups). *)

From stdpp Require Import base decidable option list gmap.

Set Default Proof Using "Type".
Set Warnings "-abstract-large-number".

(** ** The base class: the operations of [std::deque] the ring calls *)

Module deque.
Section deque.
Context {T : Type}.
Implicit Types (d : list T) (v : T) (n : nat).

Definition size d : nat := length d.

Definition empty d : bool :=
  match d with [] => true | _ :: _ => false end.

Definition push_front v d : list T := v :: d.
Definition push_back v d : list T := d ++ [v].

(** [emplace_*] builds the element from the forwarded arguments. *)
Definition emplace_front {A : Type} (ctor : A → T) (args : A) d : list T :=
  ctor args :: d.
Definition emplace_back {A : Type} (ctor : A → T) (args : A) d : list T :=
  d ++ [ctor args].

Definition pop_front d : list T := drop 1 d.
Definition pop_back d : list T := take (length d - 1) d.

(** [front()] and [back()] are only called on a non-empty deque. *)
Definition front d : option T := head d.
Definition back d : option T := last d.

(** [resize(n)]: keep the first [n] elements, or append value-initialised
    elements ([T()], here [dflt]) until there are [n]. *)
Definition resize (dflt : T) n d : list T :=
  take n d ++ replicate (n - length d) dflt.

(** [assign(first, last)]: the range, given as the list of its elements. *)
Definition assign (range : list T) d : list T := range.

(** [shrink_to_fit()] releases memory; the elements stay. *)
Definition shrink_to_fit d : list T := d.

(** [operator=(const deque&)], [operator=(deque&&)] and
    [operator=(std::initializer_list<T>)]: the contents become those of the
    right-hand side. *)
Definition operator_assign (other : list T) d : list T := other.
End deque.
End deque.

(** ** The ring *)

Record Ring (T : Type) : Type := mkRing {
  elems : list T;        (* the deque base sub-object *)
  _capacity : nat;       (* size_t _capacity *)
}.
Arguments mkRing {T} _ _.
Arguments elems {T} _.
Arguments _capacity {T} _.

Section ring.
Context {T : Type}.
Implicit Types (r : Ring T) (v : T) (n : nat).

(** [deque::size()], inherited and public. *)
Definition size r : nat := deque.size (elems r).

(** [size_t max_size() const noexcept { return _capacity; }] *)
Definition max_size r : nat := _capacity r.

(** [Ring(size_t capacity = 10000)] ([= 100000] in [src/include/ring.h]). *)
Definition default_capacity : nat := 10000.
Definition default_capacity_include : nat := 100000.
Definition Ring_capacity (capacity : nat) : Ring T := mkRing [] capacity.
Definition Ring_default : Ring T := Ring_capacity default_capacity.
Definition Ring_default_include : Ring T := Ring_capacity default_capacity_include.

(** [Ring(std::initializer_list<T> list)]: the deque is built from the
    elements, then [_capacity = std::distance(list.begin(), list.end())].
    The iterators of an initializer list are pointers, so the distance is
    the number of elements. *)
Definition Ring_list (list : list T) : Ring T := mkRing list (length list).

(** An iterator range [first, last) as the constructor [Ring(I first, I last)]
    uses it.  The base [deque(first, last)] traverses copies of the two
    iterators and stores what it reads, [traversal]; afterwards the body
    evaluates [std::distance(first, last)] on the constructor's own
    iterators, [distance_after].  Forward iterators (and stronger ones)
    guarantee that a second traversal sees the same elements.  Input
    iterators are single-pass: for [std::istream_iterator] the first
    traversal drains the stream, and the constructor's own [first] still
    holds the element it read when it was created, so the distance is 1 for
    a non-empty range and 0 for an empty one. *)
Record range : Type := mkRange {
  traversal : list T;
  distance_after : nat;
}.

Definition forward_range (l : list T) : range := mkRange l (length l).

Definition istream_range (l : list T) : range :=
  mkRange l (match l with [] => 0 | _ :: _ => 1 end).

(** [Ring(I first, I last) : deque(first, last)
      { _capacity = std::distance(first, last); }] *)
Definition Ring_range (rg : range) : Ring T :=
  mkRing (traversal rg) (distance_after rg).

(** [src/ring.h], [resize]:
    [if (_capacity > size) deque::resize(size); _capacity = size;] *)
Definition resize (dflt : T) n r : Ring T :=
  let d := if decide (n < _capacity r)
           then deque.resize dflt n (elems r) else elems r in
  mkRing d n.

(** [src/include/ring.h], [resize]:
    [_capacity = size; deque::resize(size);] *)
Definition resize_include (dflt : T) n r : Ring T :=
  mkRing (deque.resize dflt n (elems r)) n.

(** [push_front] (both overloads have the same body):
    [deque::push_front(value); if (deque::size() > _capacity) deque::pop_back();] *)
Definition push_front v r : Ring T :=
  let d := deque.push_front v (elems r) in
  let d := if decide (_capacity r < deque.size d) then deque.pop_back d else d in
  mkRing d (_capacity r).

Definition emplace_front {A : Type} (ctor : A → T) (args : A) r : Ring T :=
  let d := deque.emplace_front ctor args (elems r) in
  let d := if decide (_capacity r < deque.size d) then deque.pop_back d else d in
  mkRing d (_capacity r).

(** [push_back] (both overloads):
    [deque::push_back(value); if (deque::size() > _capacity) deque::pop_front();] *)
Definition push_back v r : Ring T :=
  let d := deque.push_back v (elems r) in
  let d := if decide (_capacity r < deque.size d) then deque.pop_front d else d in
  mkRing d (_capacity r).

Definition emplace_back {A : Type} (ctor : A → T) (args : A) r : Ring T :=
  let d := deque.emplace_back ctor args (elems r) in
  let d := if decide (_capacity r < deque.size d) then deque.pop_front d else d in
  mkRing d (_capacity r).

(** [deque::shrink_to_fit(); _capacity = deque::size();] *)
Definition shrink_to_fit r : Ring T :=
  let d := deque.shrink_to_fit (elems r) in
  mkRing d (deque.size d).

(** [std::optional<T> pop_front()]: the returned optional and the ring
    afterwards. *)
Definition pop_front r : option T * Ring T :=
  if deque.empty (elems r) then (None, r)
  else
    let value := deque.front (elems r) in
    (value, mkRing (deque.pop_front (elems r)) (_capacity r)).

Definition pop_back r : option T * Ring T :=
  if deque.empty (elems r) then (None, r)
  else
    let value := deque.back (elems r) in
    (value, mkRing (deque.pop_back (elems r)) (_capacity r)).

(** [assign(first, last)]:
    [deque::assign(first, last);
     if (auto size = deque::size(); size > _capacity) _capacity = size;] *)
Definition assign (range : list T) r : Ring T :=
  let d := deque.assign range (elems r) in
  let size := deque.size d in
  mkRing d (if decide (_capacity r < size) then size else _capacity r).

(** [using std::deque<T, Allocator>::operator=;] makes the assignment
    operators of the base public members of the ring: [ring = {1, 2, 3}] and
    [ring = some_deque] replace the deque base sub-object and leave
    [_capacity] alone. *)
Definition deque_operator_assign (other : list T) r : Ring T :=
  mkRing (deque.operator_assign other (elems r)) (_capacity r).

(** *** Blocking pops ([src/ring.h] only)

    While a consumer waits, the mutex is free and other threads change the
    ring.  A [wakeup] records one return of [_cv.wait_for] (or one wake-up of
    [_cv.wait]) that was preceded by a real wait: [others] is what the other
    threads did to the ring in the meantime, and [stop] is the value the
    [std::atomic_bool] has when the consumer reads it afterwards.

    [wait_for(lock, interval, pred)] tests [pred] first and returns [true]
    at once when it holds; otherwise it waits and returns the value of [pred]
    in the state it wakes up in ([true]: the ring was filled within the
    interval; [false]: the interval elapsed with the ring still empty). *)
Record wakeup : Type := mkWakeup {
  others : Ring T → Ring T;
  stop : bool;
}.

(** What a blocking call has done by the end of the observed wake-ups. *)
Inductive outcome : Type :=
  | Returned (value : option T) (r : Ring T)
  | Blocked (r : Ring T).

(** The code after the loop: [T value = deque::front(); deque::pop_front();
    return value;] *)
Definition take_front r : outcome :=
  let value := deque.front (elems r) in
  Returned value (mkRing (deque.pop_front (elems r)) (_capacity r)).

Definition take_back r : outcome :=
  let value := deque.back (elems r) in
  Returned value (mkRing (deque.pop_back (elems r)) (_capacity r)).

(** [pop_front_wait(const std::atomic_bool& stop)]:
    [for (;;) { if (_cv.wait_for(lock, 300ms, pred)) break;
                else if (!stop) return std::nullopt; }]
    followed by [take_front]. *)
Fixpoint pop_front_wait (trace : list wakeup) r : outcome :=
  if negb (deque.empty (elems r)) then take_front r
  else
    match trace with
    | [] => Blocked r
    | w :: trace =>
        let r := others w r in
        if negb (deque.empty (elems r)) then take_front r
        else if negb (stop w) then Returned None r
        else pop_front_wait trace r
    end.

(** [pop_back_wait(const std::atomic_bool& stop)]: the same loop with a
    100ms interval, followed by [take_back]. *)
Fixpoint pop_back_wait (trace : list wakeup) r : outcome :=
  if negb (deque.empty (elems r)) then take_back r
  else
    match trace with
    | [] => Blocked r
    | w :: trace =>
        let r := others w r in
        if negb (deque.empty (elems r)) then take_back r
        else if negb (stop w) then Returned None r
        else pop_back_wait trace r
    end.

(** [T pop_front_wait()] and [T pop_back_wait()]:
    [_cv.wait(lock, pred)], then the element is taken.  The flag is not
    read. *)
Fixpoint pop_front_wait_forever (trace : list wakeup) r : outcome :=
  if negb (deque.empty (elems r)) then take_front r
  else
    match trace with
    | [] => Blocked r
    | w :: trace => pop_front_wait_forever trace (others w r)
    end.

Fixpoint pop_back_wait_forever (trace : list wakeup) r : outcome :=
  if negb (deque.empty (elems r)) then take_back r
  else
    match trace with
    | [] => Blocked r
    | w :: trace => pop_back_wait_forever trace (others w r)
    end.

(** *** Operations on two rings

    Rings are objects; [this == &that] compares addresses. *)
(** [void swap(Ring& that)]:
    [if (this == &that) return; std::deque<T>::swap(that);]
    Only the deque base sub-objects are exchanged. *)
Definition swap (this that : nat) (σ : gmap nat (Ring T)) : gmap nat (Ring T) :=
  if decide (this = that) then σ
  else
    match σ !! this, σ !! that with
    | Some a, Some b =>
        <[that := mkRing (elems a) (_capacity b)]>
          (<[this := mkRing (elems b) (_capacity a)]> σ)
    | _, _ => σ
    end.

(** [Ring& operator=(const Ring& that)]:
    [if (this == &that) return *this; std::deque<T>::operator=(that);] *)
Definition copy_assign (this that : nat) (σ : gmap nat (Ring T)) : gmap nat (Ring T) :=
  if decide (this = that) then σ
  else
    match σ !! this, σ !! that with
    | Some a, Some b => <[this := mkRing (elems b) (_capacity a)]> σ
    | _, _ => σ
    end.

(** *** Sequences of public calls

    The emplace forms are the pushes of the constructed element and have no
    constructor of their own. *)
Inductive call : Type :=
  | CRing (this capacity : nat)
  | CRingList (this : nat) (list : list T)
  | CResize (this n : nat)
  | CPushFront (this : nat) (v : T)
  | CPushBack (this : nat) (v : T)
  | CShrinkToFit (this : nat)
  | CPopFront (this : nat)
  | CPopBack (this : nat)
  | CPopFrontWait (this : nat) (trace : list wakeup)
  | CPopBackWait (this : nat) (trace : list wakeup)
  | CPopFrontWaitForever (this : nat) (trace : list wakeup)
  | CPopBackWaitForever (this : nat) (trace : list wakeup)
  | CAssign (this : nat) (range : list T)
  | CSwap (this that : nat)
  | CCopyAssign (this that : nat)
  | CRingRange (this : nat) (rg : range)
  | CDequeAssign (this : nat) (other : list T).

Definition on (this : nat) (f : Ring T → Ring T) (σ : gmap nat (Ring T)) :
    gmap nat (Ring T) :=
  match σ !! this with
  | Some r => <[this := f r]> σ
  | None => σ
  end.

Definition after (o : outcome) : Ring T :=
  match o with Returned _ r => r | Blocked r => r end.

Definition exec (dflt : T) (c : call) (σ : gmap nat (Ring T)) : gmap nat (Ring T) :=
  match c with
  | CRing this capacity => <[this := Ring_capacity capacity]> σ
  | CRingList this l => <[this := Ring_list l]> σ
  | CResize this n => on this (resize dflt n) σ
  | CPushFront this v => on this (push_front v) σ
  | CPushBack this v => on this (push_back v) σ
  | CShrinkToFit this => on this shrink_to_fit σ
  | CPopFront this => on this (λ r, (pop_front r).2) σ
  | CPopBack this => on this (λ r, (pop_back r).2) σ
  | CPopFrontWait this trace => on this (λ r, after (pop_front_wait trace r)) σ
  | CPopBackWait this trace => on this (λ r, after (pop_back_wait trace r)) σ
  | CPopFrontWaitForever this trace =>
      on this (λ r, after (pop_front_wait_forever trace r)) σ
  | CPopBackWaitForever this trace =>
      on this (λ r, after (pop_back_wait_forever trace r)) σ
  | CAssign this range => on this (assign range) σ
  | CSwap this that => swap this that σ
  | CCopyAssign this that => copy_assign this that σ
  | CRingRange this rg => <[this := Ring_range rg]> σ
  | CDequeAssign this other => on this (deque_operator_assign other) σ
  end.

Definition run (dflt : T) (cs : list call) (σ : gmap nat (Ring T)) : gmap nat (Ring T) :=
  foldl (λ σ c, exec dflt c σ) σ cs.

(** The capacity invariant of one ring and of a store. *)
Definition bounded r : Prop := size r ≤ max_size r.
Definition all_bounded (σ : gmap nat (Ring T)) : Prop :=
  ∀ a r, σ !! a = Some r → bounded r.

(** The other threads use the ring through calls that keep it bounded. *)
Definition tame (trace : list wakeup) : Prop :=
  Forall (λ w, ∀ r, bounded r → bounded (others w r)) trace.

(** The calls that keep the bound whatever their arguments: construction
    with a capacity, from an initializer list, or from a range whose distance
    the constructor does not undercount (every forward range); [resize], the
    pushes, the pops, the blocking pops among tame threads, [shrink_to_fit]
    and [assign].  Left out: [swap], copy assignment from a ring, the
    assignment operators inherited from the deque, and construction from a
    single-pass range that the constructor undercounts. *)
Definition bound_keeping (c : call) : Prop :=
  match c with
  | CSwap _ _ | CCopyAssign _ _ | CDequeAssign _ _ => False
  | CRingRange _ rg => length (traversal rg) ≤ distance_after rg
  | CPopFrontWait _ trace | CPopBackWait _ trace
  | CPopFrontWaitForever _ trace | CPopBackWaitForever _ trace => tame trace
  | _ => True
  end.

(** The loop of the two flagged blocking pops, with the code after the loop
    as a parameter. *)
Fixpoint wait_loop (take : Ring T → outcome) (trace : list wakeup) r : outcome :=
  if negb (deque.empty (elems r)) then take r
  else
    match trace with
    | [] => Blocked r
    | w :: trace =>
        let r := others w r in
        if negb (deque.empty (elems r)) then take r
        else if negb (stop w) then Returned None r
        else wait_loop take trace r
    end.

(** The ring after wake-ups that each found it empty; [None] when one of them
    found an element. *)
Fixpoint idle (trace : list wakeup) r : option (Ring T) :=
  match trace with
  | [] => Some r
  | w :: trace =>
      let r := others w r in
      if deque.empty (elems r) then idle trace r else None
  end.

(** Sequencing of a blocking call with what follows it: a call that has
    returned stays as it is, a call that is still blocked goes on with [k]
    on the ring it is blocked on. *)
Definition resume (o : outcome) (k : Ring T → outcome) : outcome :=
  match o with
  | Returned v r' => Returned v r'
  | Blocked r' => k r'
  end.
End ring.

Arguments wakeup T : clear implicits.
Arguments outcome T : clear implicits.
Arguments call T : clear implicits.
Arguments mkWakeup {T} _ _.
Arguments Returned {T} _ _.
Arguments Blocked {T} _.
Arguments CRing {T} _ _.
Arguments CRingList {T} _ _.
Arguments CResize {T} _ _.
Arguments CPushFront {T} _ _.
Arguments CPushBack {T} _ _.
Arguments CShrinkToFit {T} _.
Arguments CPopFront {T} _.
Arguments CPopBack {T} _.
Arguments CPopFrontWait {T} _ _.
Arguments CPopBackWait {T} _ _.
Arguments CPopFrontWaitForever {T} _ _.
Arguments CPopBackWaitForever {T} _ _.
Arguments CAssign {T} _ _.
Arguments CSwap {T} _ _.
Arguments CCopyAssign {T} _ _.
Arguments CRingRange {T} _ _.
Arguments CDequeAssign {T} _ _.
Arguments range T : clear implicits.
Arguments mkRange {T} _ _.

(** * Properties *)

(** ** Facts about the deque operations *)

Section deque_facts.
Context {T : Type}.
Implicit Types (d : list T) (v x : T) (n : nat).

Lemma deque_empty_nil d : deque.empty d = true ↔ d = [].
Proof. destruct d; simpl; split; congruence. Qed.

Lemma deque_empty_size d : deque.empty d = true ↔ deque.size d = 0.
Proof. destruct d; simpl; split; (congruence || lia). Qed.

Lemma deque_pop_front_cons x d : deque.pop_front (x :: d) = d.
Proof. unfold deque.pop_front. simpl. by rewrite drop_0. Qed.

Lemma deque_pop_back_snoc d x : deque.pop_back (d ++ [x]) = d.
Proof.
  unfold deque.pop_back. rewrite length_app. simpl.
  replace (length d + 1 - 1) with (length d) by lia.
  by rewrite take_app_length.
Qed.

Lemma deque_pop_back_size d : deque.size (deque.pop_back d) = deque.size d - 1.
Proof. unfold deque.pop_back, deque.size. rewrite length_take. lia. Qed.

Lemma deque_pop_front_size d : deque.size (deque.pop_front d) = deque.size d - 1.
Proof. unfold deque.pop_front, deque.size. rewrite length_drop. lia. Qed.

(** A non-empty deque is its elements but the last, then its back. *)
Lemma deque_back_split d :
  d ≠ [] → ∃ x, deque.back d = Some x ∧ d = deque.pop_back d ++ [x].
Proof.
  intros Hd. destruct (decide (d = [])) as [|_]; [done|].
  induction d as [|y d IH] using rev_ind; [done|].
  exists y. split.
  - unfold deque.back. apply last_snoc.
  - by rewrite deque_pop_back_snoc.
Qed.

Lemma deque_front_split d :
  d ≠ [] → ∃ x, deque.front d = Some x ∧ d = x :: deque.pop_front d.
Proof.
  destruct d as [|x d]; [done|]. intros _. exists x.
  by rewrite deque_pop_front_cons.
Qed.

Lemma deque_resize_size dflt n d : deque.size (deque.resize dflt n d) = n.
Proof.
  unfold deque.resize, deque.size.
  rewrite length_app, length_take, length_replicate. lia.
Qed.

Lemma deque_resize_shrink dflt n d :
  n ≤ deque.size d → deque.resize dflt n d = take n d.
Proof.
  unfold deque.resize, deque.size. intros Hn.
  replace (n - length d) with 0 by lia. simpl. by rewrite app_nil_r.
Qed.

Lemma deque_resize_grow dflt n d :
  deque.size d ≤ n →
  deque.resize dflt n d = d ++ replicate (n - deque.size d) dflt.
Proof.
  unfold deque.resize, deque.size. intros Hn. by rewrite take_ge.
Qed.
End deque_facts.

(** ** Pushing *)

Section push_facts.
Context {T : Type}.
Implicit Types (r : Ring T) (v x : T).

Lemma push_front_max_size v r : max_size (push_front v r) = max_size r.
Proof. done. Qed.

Lemma push_back_max_size v r : max_size (push_back v r) = max_size r.
Proof. done. Qed.

Lemma push_front_fits v r :
  S (size r) ≤ max_size r → elems (push_front v r) = v :: elems r.
Proof.
  unfold push_front, size, max_size, deque.push_front, deque.size. simpl.
  intros Hfit. case_decide; [lia | done].
Qed.

Lemma push_back_fits v r :
  S (size r) ≤ max_size r → elems (push_back v r) = elems r ++ [v].
Proof.
  unfold push_back, size, max_size, deque.push_back, deque.size. simpl.
  rewrite length_app. simpl. intros Hfit. case_decide; [lia | done].
Qed.

Lemma push_front_overflow v r :
  max_size r < S (size r) →
  ∃ x, deque.back (v :: elems r) = Some x
       ∧ v :: elems r = elems (push_front v r) ++ [x].
Proof.
  unfold push_front, size, max_size, deque.push_front, deque.size. simpl.
  intros Hover. case_decide; [|lia]. simpl.
  by apply (deque_back_split (v :: elems r)).
Qed.

Lemma push_back_overflow v r :
  max_size r < S (size r) →
  ∃ x, deque.front (elems r ++ [v]) = Some x
       ∧ elems r ++ [v] = x :: elems (push_back v r).
Proof.
  unfold push_back, size, max_size, deque.push_back, deque.size. simpl.
  rewrite length_app. simpl. intros Hover. case_decide; [|lia]. simpl.
  apply deque_front_split. by destruct (elems r).
Qed.

Lemma emplace_front_push {A : Type} (ctor : A → T) (args : A) r :
  emplace_front ctor args r = push_front (ctor args) r.
Proof. done. Qed.

Lemma emplace_back_push {A : Type} (ctor : A → T) (args : A) r :
  emplace_back ctor args r = push_back (ctor args) r.
Proof. done. Qed.

(** After a push the ring holds at most [max(capacity, size)] elements: a
    push never makes an overfull ring fuller, and fills a ring with room by
    one. *)
Lemma push_front_size v r :
  size (push_front v r) = if decide (size r < max_size r) then S (size r) else size r.
Proof.
  unfold push_front, size, max_size, deque.push_front. simpl.
  repeat case_decide; simpl in *; try lia.
  rewrite deque_pop_back_size. simpl. lia.
Qed.

Lemma push_back_size v r :
  size (push_back v r) = if decide (size r < max_size r) then S (size r) else size r.
Proof.
  unfold push_back, size, max_size, deque.push_back. simpl.
  repeat case_decide; unfold deque.size in *; rewrite ?length_app in *;
    simpl in *; try lia.
  rewrite deque_pop_front_size. unfold deque.size. rewrite length_app. simpl. lia.
Qed.
End push_facts.

(** C2.  A push inserts at the named end; when the count then exceeds the
    capacity, exactly one element leaves at the opposite end: the old back for
    a front push, the old front for a back push.  The emplace forms behave as
    the push of the constructed element.  Capacity 3: pushing 1,2,3,4 at the
    back leaves [2;3;4], at the front [4;3;2]. *)
Theorem C2_push_evicts_opposite_end :
  (∀ (T : Type) (v : T) (r : Ring T),
      max_size (push_front v r) = max_size r
      ∧ max_size (push_back v r) = max_size r
      ∧ (S (size r) ≤ max_size r →
           elems (push_front v r) = v :: elems r
           ∧ elems (push_back v r) = elems r ++ [v])
      ∧ (max_size r < S (size r) →
           (∃ x, deque.back (v :: elems r) = Some x
                 ∧ v :: elems r = elems (push_front v r) ++ [x])
           ∧ (∃ x, deque.front (elems r ++ [v]) = Some x
                   ∧ elems r ++ [v] = x :: elems (push_back v r))))
  ∧ (∀ (T A : Type) (ctor : A → T) (args : A) (r : Ring T),
      emplace_front ctor args r = push_front (ctor args) r
      ∧ emplace_back ctor args r = push_back (ctor args) r)
  ∧ elems (push_back 4 (push_back 3 (push_back 2 (push_back 1
             (Ring_capacity 3))))) = [2; 3; 4]
  ∧ elems (push_front 4 (push_front 3 (push_front 2 (push_front 1
             (Ring_capacity 3))))) = [4; 3; 2].
Proof.
  split; [|split; [|split]].
  - intros T v r. split; [done|]. split; [done|]. split.
    + intros Hfit. split; [by apply push_front_fits | by apply push_back_fits].
    + intros Hover.
      split; [by apply push_front_overflow | by apply push_back_overflow].
  - intros T A ctor args r. split; reflexivity.
  - reflexivity.
  - reflexivity.
Qed.

(** C2 at a full ring of capacity 3 holding 1,2,3: pushing 4 at the front
    drops the back element 3; and at the ring 1,2 of capacity 3, where 4 is
    added and nothing leaves. *)
Lemma C2_push_evicts_opposite_end_witness :
  (max_size (mkRing [1; 2; 3] 3) < S (size (mkRing [1; 2; 3] 3))
   ∧ ∃ x, deque.back [4; 1; 2; 3] = Some x
          ∧ [4; 1; 2; 3] = elems (push_front 4 (mkRing [1; 2; 3] 3)) ++ [x])
  ∧ (S (size (mkRing [1; 2] 3)) ≤ max_size (mkRing [1; 2] 3)
     ∧ elems (push_front 4 (mkRing [1; 2] 3)) = [4; 1; 2]
     ∧ elems (push_back 4 (mkRing [1; 2] 3)) = [1; 2; 4]).
Proof.
  assert (Hover : max_size (mkRing [1; 2; 3] 3) < S (size (mkRing [1; 2; 3] 3)))
    by (vm_compute; lia).
  assert (Hfit : S (size (mkRing [1; 2] 3)) ≤ max_size (mkRing [1; 2] 3))
    by (vm_compute; lia).
  destruct C2_push_evicts_opposite_end as [Hpush _].
  destruct (Hpush nat 4 (mkRing [1; 2; 3] 3)) as (_ & _ & _ & Hev).
  destruct (Hpush nat 4 (mkRing [1; 2] 3)) as (_ & _ & Hadd & _).
  destruct (Hev Hover) as [Hfront _].
  split; [split; [exact Hover | exact Hfront]|].
  split; [exact Hfit | exact (Hadd Hfit)].
Defined.

(** ** Non-blocking pops *)

Section pop_facts.
Context {T : Type}.
Implicit Types (r : Ring T) (d : list T) (x : T).

Lemma pop_front_empty r : elems r = [] → pop_front r = (None, r).
Proof. unfold pop_front. by intros ->. Qed.

Lemma pop_back_empty r : elems r = [] → pop_back r = (None, r).
Proof. unfold pop_back. by intros ->. Qed.

Lemma pop_front_cons r x d :
  elems r = x :: d → pop_front r = (Some x, mkRing d (_capacity r)).
Proof.
  unfold pop_front. intros ->. simpl. by rewrite deque_pop_front_cons.
Qed.

Lemma pop_back_snoc r d x :
  elems r = d ++ [x] → pop_back r = (Some x, mkRing d (_capacity r)).
Proof.
  unfold pop_back, deque.back. intros ->.
  rewrite deque_pop_back_snoc, last_snoc. by destruct d.
Qed.

Lemma pop_front_size r : size (pop_front r).2 = size r - 1.
Proof.
  unfold pop_front, size. destruct (elems r) as [|x d] eqn:Hd; simpl.
  - by rewrite Hd.
  - rewrite deque_pop_front_cons. unfold deque.size. lia.
Qed.

Lemma pop_back_size r : size (pop_back r).2 = size r - 1.
Proof.
  unfold pop_back, size. destruct (deque.empty (elems r)) eqn:He; simpl.
  - apply deque_empty_size in He. lia.
  - by rewrite deque_pop_back_size.
Qed.
End pop_facts.

(** C6.  [pop_front] and [pop_back] on an empty ring return the empty
    optional and leave the ring as it is; on a non-empty ring they return the
    element at the named end and remove exactly it.  The functions are total:
    there is no other result. *)
Theorem C6_pop_empty_or_end (T : Type) (r : Ring T) :
  (elems r = [] → pop_front r = (None, r) ∧ pop_back r = (None, r))
  ∧ (∀ x d, elems r = x :: d →
       pop_front r = (Some x, mkRing d (max_size r)))
  ∧ (∀ d x, elems r = d ++ [x] →
       pop_back r = (Some x, mkRing d (max_size r))).
Proof.
  split; [|split].
  - intros Hd. split; [by apply pop_front_empty | by apply pop_back_empty].
  - intros x d Hd. by apply pop_front_cons.
  - intros d x Hd. by apply pop_back_snoc.
Qed.

(** C6 on the empty ring of capacity 2 and on the ring 1,2,3. *)
Lemma C6_pop_empty_or_end_witness :
  pop_front (Ring_capacity 2 : Ring nat) = (None, Ring_capacity 2)
  ∧ pop_back (Ring_capacity 2 : Ring nat) = (None, Ring_capacity 2)
  ∧ pop_front (Ring_list [1; 2; 3]) = (Some 1, mkRing [2; 3] 3)
  ∧ pop_back (Ring_list [1; 2; 3]) = (Some 3, mkRing [1; 2] 3).
Proof.
  destruct (C6_pop_empty_or_end nat (Ring_capacity 2)) as (Hnone & _ & _).
  destruct (C6_pop_empty_or_end nat (Ring_list [1; 2; 3])) as (_ & Hf & Hb).
  destruct (Hnone eq_refl) as [Hnf Hnb].
  split; [exact Hnf|]. split; [exact Hnb|]. split.
  - exact (Hf 1 [2; 3] eq_refl).
  - exact (Hb [1; 2] 3 eq_refl).
Defined.

(** ** Bulk assignment and construction *)

(** C8.  [assign] replaces the contents by the range, in order.  A range
    longer than the capacity raises the capacity to the length of the range;
    otherwise the capacity stays. *)
Theorem C8_assign_replaces_and_expands (T : Type) (range : list T) (r : Ring T) :
  elems (assign range r) = range
  ∧ (max_size r < length range → max_size (assign range r) = length range)
  ∧ (length range ≤ max_size r → max_size (assign range r) = max_size r).
Proof.
  unfold assign, max_size, deque.assign, deque.size. simpl.
  split; [done|]. split; intros Hlen; case_decide; lia.
Qed.

(** C8 on a ring of capacity 2: a range of three raises the capacity to 3,
    a range of one leaves it at 2. *)
Lemma C8_assign_replaces_and_expands_witness :
  max_size (assign [7; 8; 9] (Ring_list [1; 2])) = 3
  ∧ max_size (assign [7] (Ring_list [1; 2])) = 2.
Proof.
  split.
  - apply (C8_assign_replaces_and_expands nat [7; 8; 9] (Ring_list [1; 2])).
    vm_compute. lia.
  - apply (C8_assign_replaces_and_expands nat [7] (Ring_list [1; 2])).
    vm_compute. lia.
Defined.

(** A ring built from an initializer list, or from a forward range, holds
    the given elements in their order under a capacity equal to their
    number.  From any range it holds the elements the deque read. *)
Lemma construct_from_elements (T : Type) (l : list T) (rg : range T) :
  elems (Ring_list l) = l ∧ max_size (Ring_list l) = length l
  ∧ elems (Ring_range (forward_range l)) = l
  ∧ max_size (Ring_range (forward_range l)) = length l
  ∧ elems (Ring_range rg) = traversal rg
  ∧ max_size (Ring_range rg) = distance_after rg.
Proof. unfold Ring_list, Ring_range, forward_range, max_size. simpl. repeat split. Qed.

(** C9.  The range constructor counts the elements with
    [std::distance(first, last)] after the deque has already traversed the
    range.  For a single-pass range the count is not the number of stored
    elements: built from the stream 1 2 3 through [std::istream_iterator],
    the ring holds 1,2,3 under capacity 1.  From the initializer list, and
    from a forward range over the same elements, the capacity is 3. *)
Theorem C9_single_pass_range_undercounts :
  Ring_range (istream_range [1; 2; 3]) = mkRing [1; 2; 3] 1
  ∧ max_size (Ring_range (istream_range [1; 2; 3]))
    < size (Ring_range (istream_range [1; 2; 3]))
  ∧ Ring_range (forward_range [1; 2; 3]) = mkRing [1; 2; 3] 3
  ∧ Ring_list [1; 2; 3] = mkRing [1; 2; 3] 3.
Proof. repeat split; vm_compute; lia. Qed.

(** ** Operations on two rings *)

Section two_rings.
Context {T : Type}.
Implicit Types (σ : gmap nat (Ring T)) (a b : Ring T) (this that : nat).

Lemma copy_assign_self this σ : copy_assign this this σ = σ.
Proof. unfold copy_assign. by case_decide. Qed.

Lemma copy_assign_this this that σ a b :
  this ≠ that → σ !! this = Some a → σ !! that = Some b →
  copy_assign this that σ !! this = Some (mkRing (elems b) (_capacity a)).
Proof.
  intros Hne Ha Hb. unfold copy_assign. case_decide; [done|].
  rewrite Ha, Hb. apply lookup_insert_eq.
Qed.

Lemma copy_assign_frame this that σ (other : nat) :
  other ≠ this → copy_assign this that σ !! other = σ !! other.
Proof.
  intros Hne. unfold copy_assign. case_decide; [done|].
  destruct (σ !! this), (σ !! that); try done. by apply lookup_insert_ne.
Qed.

Lemma swap_self this σ : swap this this σ = σ.
Proof. unfold swap. by case_decide. Qed.

(** What [swap] does to two distinct rings: each receives the elements of
    the other and keeps its own [_capacity]. *)
Lemma swap_this this that σ a b :
  this ≠ that → σ !! this = Some a → σ !! that = Some b →
  swap this that σ !! this = Some (mkRing (elems b) (_capacity a)).
Proof.
  intros Hne Ha Hb. unfold swap. case_decide; [done|].
  rewrite Ha, Hb. rewrite lookup_insert_ne by done. apply lookup_insert_eq.
Qed.

Lemma swap_that this that σ a b :
  this ≠ that → σ !! this = Some a → σ !! that = Some b →
  swap this that σ !! that = Some (mkRing (elems a) (_capacity b)).
Proof.
  intros Hne Ha Hb. unfold swap. case_decide; [done|].
  rewrite Ha, Hb. apply lookup_insert_eq.
Qed.

Lemma swap_frame this that σ (other : nat) :
  other ≠ this → other ≠ that → swap this that σ !! other = σ !! other.
Proof.
  intros Hthis Hthat. unfold swap. case_decide; [done|].
  destruct (σ !! this), (σ !! that); try done.
  by rewrite !lookup_insert_ne.
Qed.
End two_rings.

(** C7.  Copy assignment [a = b] between two distinct rings gives [a] the
    elements of [b] and leaves the capacity of [a], the ring [b] and every
    other ring as they were; [a = a] changes nothing. *)
Theorem C7_copy_assign_contents_only
    (T : Type) (σ : gmap nat (Ring T)) (this that : nat) (a b : Ring T) :
  σ !! this = Some a → σ !! that = Some b →
  (this ≠ that →
     (∃ a', copy_assign this that σ !! this = Some a'
            ∧ elems a' = elems b ∧ max_size a' = max_size a)
     ∧ ∀ other, other ≠ this → copy_assign this that σ !! other = σ !! other)
  ∧ copy_assign this this σ = σ.
Proof.
  intros Ha Hb. split; [|apply copy_assign_self].
  intros Hne. split.
  - exists (mkRing (elems b) (_capacity a)).
    split; [by apply copy_assign_this | done].
  - intros other Hother. by apply copy_assign_frame.
Qed.

(** C7 with [a] = 1,2 (capacity 2) at address 0 and [b] = 7 (capacity 1) at
    address 1. *)
Lemma C7_copy_assign_contents_only_witness :
  (∃ a', copy_assign 0 1 (<[1 := Ring_list [7]]> {[0 := Ring_list [1; 2]]}) !! 0
           = Some a'
         ∧ elems a' = [7] ∧ max_size a' = 2)
  ∧ copy_assign 0 1 (<[1 := Ring_list [7]]> {[0 := Ring_list [1; 2]]}) !! 1
    = (<[1 := Ring_list [7]]> {[0 := Ring_list [1; 2]]} : gmap nat (Ring nat)) !! 1.
Proof.
  destruct (C7_copy_assign_contents_only nat
              (<[1 := Ring_list [7]]> {[0 := Ring_list [1; 2]]}) 0 1
              (Ring_list [1; 2]) (Ring_list [7])) as [Hcopy _].
  - vm_compute. reflexivity.
  - vm_compute. reflexivity.
  - destruct Hcopy as [Ha' Hframe]; [lia|].
    split; [exact Ha' | apply Hframe; lia].
Defined.

(** ** The capacity bound *)

Section bound.
Context {T : Type}.
Implicit Types (r : Ring T) (v : T) (n : nat) (σ : gmap nat (Ring T)).

Lemma Ring_capacity_bounded n : bounded (Ring_capacity n : Ring T).
Proof. unfold bounded, size, max_size. simpl. lia. Qed.

Lemma Ring_list_bounded (l : list T) : bounded (Ring_list l).
Proof. unfold bounded, size, max_size. simpl. done. Qed.

Lemma Ring_range_bounded (rg : range T) :
  bounded (Ring_range rg) ↔ length (traversal rg) ≤ distance_after rg.
Proof. done. Qed.

Lemma resize_bounded dflt n r : bounded r → bounded (resize dflt n r).
Proof.
  unfold bounded, resize, size, max_size. simpl. intros Hr.
  case_decide; [rewrite deque_resize_size|]; lia.
Qed.

Lemma resize_include_bounded dflt n r : bounded (resize_include dflt n r).
Proof.
  unfold bounded, resize_include, size, max_size. simpl.
  by rewrite deque_resize_size.
Qed.

Lemma push_front_bounded v r : bounded r → bounded (push_front v r).
Proof.
  unfold bounded. rewrite push_front_size, push_front_max_size.
  intros Hr. case_decide; lia.
Qed.

Lemma push_back_bounded v r : bounded r → bounded (push_back v r).
Proof.
  unfold bounded. rewrite push_back_size, push_back_max_size.
  intros Hr. case_decide; lia.
Qed.

Lemma shrink_to_fit_bounded r : bounded (shrink_to_fit r).
Proof. unfold bounded, shrink_to_fit, size, max_size. simpl. done. Qed.

Lemma pop_front_bounded r : bounded r → bounded (pop_front r).2.
Proof.
  unfold bounded. rewrite pop_front_size. intros Hr.
  replace (max_size (pop_front r).2) with (max_size r); [lia|].
  unfold pop_front. by destruct (deque.empty (elems r)).
Qed.

Lemma pop_back_bounded r : bounded r → bounded (pop_back r).2.
Proof.
  unfold bounded. rewrite pop_back_size. intros Hr.
  replace (max_size (pop_back r).2) with (max_size r); [lia|].
  unfold pop_back. by destruct (deque.empty (elems r)).
Qed.

Lemma assign_bounded (range : list T) r : bounded (assign range r).
Proof.
  unfold bounded, assign, size, max_size, deque.assign, deque.size. simpl.
  case_decide; lia.
Qed.

Lemma take_front_bounded r : bounded r → bounded (after (take_front r)).
Proof.
  unfold bounded, take_front, size, max_size. simpl.
  rewrite deque_pop_front_size. lia.
Qed.

Lemma take_back_bounded r : bounded r → bounded (after (take_back r)).
Proof.
  unfold bounded, take_back, size, max_size. simpl.
  rewrite deque_pop_back_size. lia.
Qed.

Lemma pop_front_wait_bounded (trace : list (wakeup T)) r :
  tame trace → bounded r → bounded (after (pop_front_wait trace r)).
Proof.
  intros Htame. revert r.
  induction Htame as [|w trace Hw _ IH]; intros r Hr; simpl.
  - destruct (negb _); [by apply take_front_bounded | done].
  - destruct (negb (deque.empty (elems r))); [by apply take_front_bounded|].
    specialize (Hw r Hr).
    destruct (negb (deque.empty (elems (others w r))));
      [by apply take_front_bounded|].
    destruct (negb (stop w)); [done | by apply IH].
Qed.

Lemma pop_back_wait_bounded (trace : list (wakeup T)) r :
  tame trace → bounded r → bounded (after (pop_back_wait trace r)).
Proof.
  intros Htame. revert r.
  induction Htame as [|w trace Hw _ IH]; intros r Hr; simpl.
  - destruct (negb _); [by apply take_back_bounded | done].
  - destruct (negb (deque.empty (elems r))); [by apply take_back_bounded|].
    specialize (Hw r Hr).
    destruct (negb (deque.empty (elems (others w r))));
      [by apply take_back_bounded|].
    destruct (negb (stop w)); [done | by apply IH].
Qed.

Lemma pop_front_wait_forever_bounded (trace : list (wakeup T)) r :
  tame trace → bounded r → bounded (after (pop_front_wait_forever trace r)).
Proof.
  intros Htame. revert r.
  induction Htame as [|w trace Hw _ IH]; intros r Hr; simpl.
  - destruct (negb _); [by apply take_front_bounded | done].
  - destruct (negb _); [by apply take_front_bounded | by apply IH, Hw].
Qed.

Lemma pop_back_wait_forever_bounded (trace : list (wakeup T)) r :
  tame trace → bounded r → bounded (after (pop_back_wait_forever trace r)).
Proof.
  intros Htame. revert r.
  induction Htame as [|w trace Hw _ IH]; intros r Hr; simpl.
  - destruct (negb _); [by apply take_back_bounded | done].
  - destruct (negb _); [by apply take_back_bounded | by apply IH, Hw].
Qed.

Lemma on_bounded (this : nat) (f : Ring T → Ring T) σ :
  (∀ r, bounded r → bounded (f r)) → all_bounded σ → all_bounded (on this f σ).
Proof.
  intros Hf Hσ a r. unfold on. destruct (σ !! this) as [r0|] eqn:Hthis.
  - destruct (decide (this = a)) as [->|Hne].
    + rewrite lookup_insert_eq. intros [= <-]. apply Hf. by eapply Hσ.
    + rewrite lookup_insert_ne by done. apply Hσ.
  - apply Hσ.
Qed.

Lemma insert_bounded (this : nat) r σ :
  bounded r → all_bounded σ → all_bounded (<[this := r]> σ).
Proof.
  intros Hr Hσ a r'. destruct (decide (this = a)) as [->|Hne].
  - rewrite lookup_insert_eq. by intros [= <-].
  - rewrite lookup_insert_ne by done. apply Hσ.
Qed.

(** Every bound-keeping call keeps every ring of the store within its
    capacity. *)
Lemma exec_bound_keeping dflt (c : call T) σ :
  bound_keeping c → all_bounded σ → all_bounded (exec dflt c σ).
Proof.
  destruct c; simpl; intros Hc Hσ; try done.
  - apply insert_bounded; [apply Ring_capacity_bounded | done].
  - apply insert_bounded; [apply Ring_list_bounded | done].
  - apply on_bounded; [apply resize_bounded | done].
  - apply on_bounded; [apply push_front_bounded | done].
  - apply on_bounded; [apply push_back_bounded | done].
  - apply on_bounded; [intros; apply shrink_to_fit_bounded | done].
  - apply on_bounded; [apply pop_front_bounded | done].
  - apply on_bounded; [apply pop_back_bounded | done].
  - apply on_bounded; [intros; by apply pop_front_wait_bounded | done].
  - apply on_bounded; [intros; by apply pop_back_wait_bounded | done].
  - apply on_bounded; [intros; by apply pop_front_wait_forever_bounded | done].
  - apply on_bounded; [intros; by apply pop_back_wait_forever_bounded | done].
  - apply on_bounded; [intros; apply assign_bounded | done].
  - apply insert_bounded; [by apply Ring_range_bounded | done].
Qed.

Lemma run_bound_keeping dflt (cs : list (call T)) σ :
  Forall bound_keeping cs → all_bounded σ → all_bounded (run dflt cs σ).
Proof.
  intros Hcs. revert σ. unfold run.
  induction Hcs as [|c cs Hc _ IH]; intros σ Hσ; simpl; [done|].
  apply IH. by apply exec_bound_keeping.
Qed.

(** On a bounded ring of capacity 0 every push leaves the ring empty. *)
Lemma push_capacity_zero v r :
  bounded r → max_size r = 0 →
  elems (push_front v r) = [] ∧ elems (push_back v r) = [].
Proof.
  unfold bounded, size, deque.size. intros Hr H0.
  assert (elems r = []) as Hnil by (apply length_zero_iff_nil; lia).
  unfold push_front, push_back, max_size in *. rewrite Hnil, H0. by simpl.
Qed.
End bound.

(** C1.  The bound [size() <= max_size()] does not survive copy assignment or
    [swap]: both move the elements of a larger ring into a ring whose
    capacity stays as it was.  With [a] built from 1,2 and [b] from 1,2,3,
    after [a = b] (and likewise after [a.swap(b)]) the ring [a] holds three
    elements under capacity 2. *)
Theorem C1_copy_assign_and_swap_exceed_capacity :
  run 0 [CRingList 0 [1; 2]; CRingList 1 [1; 2; 3]; CCopyAssign 0 1] ∅ !! 0
    = Some (mkRing [1; 2; 3] 2)
  ∧ run 0 [CRingList 0 [1; 2]; CRingList 1 [1; 2; 3]; CSwap 0 1] ∅ !! 0
    = Some (mkRing [1; 2; 3] 2)
  ∧ max_size (mkRing [1; 2; 3] 2) < size (mkRing [1; 2; 3] 2).
Proof. split; [|split]; vm_compute; (reflexivity || lia). Qed.

(** C5.  [swap] exchanges the elements of two distinct rings but not their
    capacities: with [a] built from 1,2 and [b] from 7,8,9, after
    [a.swap(b)] the ring [a] holds 7,8,9 with capacity 2 and [b] holds 1,2
    with capacity 3. *)
Theorem C5_swap_leaves_capacities :
  swap 0 1 (<[1 := Ring_list [7; 8; 9]]> {[0 := Ring_list [1; 2]]}) !! 0
    = Some (mkRing [7; 8; 9] 2)
  ∧ swap 0 1 (<[1 := Ring_list [7; 8; 9]]> {[0 := Ring_list [1; 2]]}) !! 1
    = Some (mkRing [1; 2] 3)
  ∧ max_size (Ring_list [7; 8; 9]) = 3.
Proof. split; [|split]; vm_compute; reflexivity. Qed.

(** C10.  A ring of capacity 0 that copy assignment has filled is not
    emptied by a push: with [a] of capacity 0 and [b] built from 1,2,3, after
    [a = b] and [a.push_back(4)] the ring [a] holds 2,3,4. *)
Theorem C10_push_on_overfull_capacity_zero :
  run 0 [CRing 0 0; CRingList 1 [1; 2; 3]; CCopyAssign 0 1; CPushBack 0 4] ∅ !! 0
    = Some (mkRing [2; 3; 4] 0)
  ∧ run 0 [CRing 0 0; CRingList 1 [1; 2; 3]; CCopyAssign 0 1; CPushFront 0 4] ∅ !! 0
    = Some (mkRing [4; 1; 2] 0).
Proof. split; vm_compute; reflexivity. Qed.

(** ** Changing the capacity *)

Section resize_facts.
Context {T : Type}.
Implicit Types (r : Ring T) (dflt : T) (n : nat).

Lemma resize_max_size dflt n r : max_size (resize dflt n r) = n.
Proof. done. Qed.

Lemma resize_truncates dflt n r :
  bounded r → n ≤ size r → elems (resize dflt n r) = take n (elems r).
Proof.
  unfold bounded, resize, size, max_size. simpl. intros Hr Hn.
  case_decide.
  - by apply deque_resize_shrink.
  - rewrite take_ge; [done|]. unfold deque.size in *. lia.
Qed.

Lemma resize_raise dflt n r :
  max_size r ≤ n → elems (resize dflt n r) = elems r.
Proof.
  unfold resize, max_size. simpl. intros Hn. case_decide; [lia | done].
Qed.

(** Below the old capacity the deque is resized whatever it holds. *)
Lemma resize_below_capacity dflt n r :
  n < max_size r → elems (resize dflt n r) = deque.resize dflt n (elems r).
Proof.
  unfold resize, max_size. simpl. intros Hn. case_decide; [done | lia].
Qed.

Lemma resize_include_truncates dflt n r :
  n ≤ size r → elems (resize_include dflt n r) = take n (elems r).
Proof. unfold resize_include, size. simpl. apply deque_resize_shrink. Qed.

Lemma resize_include_fills dflt n r :
  size r ≤ n →
  elems (resize_include dflt n r) = elems r ++ replicate (n - size r) dflt.
Proof. unfold resize_include, size. simpl. apply deque_resize_grow. Qed.
End resize_facts.

(** C3.  [resize] does insert value-initialised elements.  In [src/ring.h]
    the guard compares the new size with the capacity, not with the element
    count: a ring of capacity 10 holding 1,2 is padded by [resize(5)] to
    1,2,0,0,0.  In [src/include/ring.h] the deque is resized without a
    guard: the ring built from 1,2 is padded by [resize(5)] the same way,
    where [src/ring.h] leaves it at 1,2. *)
Lemma C3_resize_inserts_defaults :
  (size (push_back 2 (push_back 1 (Ring_capacity 10))) ≤ 5
   ∧ elems (resize 0 5 (push_back 2 (push_back 1 (Ring_capacity 10))))
     = [1; 2; 0; 0; 0])
  ∧ (size (Ring_list [1; 2]) ≤ 5
     ∧ elems (resize_include 0 5 (Ring_list [1; 2])) = [1; 2; 0; 0; 0]).
Proof. repeat split; vm_compute; (reflexivity || lia). Qed.

(** The sibling path: on the ring built from 1,2 the [resize(5)] of
    [src/ring.h] leaves the elements as they are. *)
Lemma resize_raise_keeps_elements :
  resize 0 5 (Ring_list [1; 2]) = mkRing [1; 2] 5.
Proof. reflexivity. Qed.

(** What [resize(n)] does apart from padding: it sets the capacity to [n].
    In [src/ring.h], on a ring within its capacity: when [n] is at most the
    element count the contents are cut from the tail to their first [n]
    elements, and when [n] is at least the old capacity the contents stay.
    In [src/include/ring.h]: when [n] is at most the element count the
    contents are cut to their first [n] elements, and otherwise they are
    followed by [n - size] value-initialised elements. *)
Theorem resize_sets_capacity_and_truncates
    (T : Type) (dflt : T) (n : nat) (r : Ring T) :
  max_size (resize dflt n r) = n
  ∧ (bounded r → n ≤ size r →
       elems (resize dflt n r) = take n (elems r)
       ∧ size (resize dflt n r) = n)
  ∧ (max_size r ≤ n → elems (resize dflt n r) = elems r)
  ∧ max_size (resize_include dflt n r) = n
  ∧ (n ≤ size r →
       elems (resize_include dflt n r) = take n (elems r)
       ∧ size (resize_include dflt n r) = n)
  ∧ (size r ≤ n →
       elems (resize_include dflt n r)
       = elems r ++ replicate (n - size r) dflt).
Proof.
  split; [done|]. split; [|split; [|split; [done|split]]].
  - intros Hr Hn.
    pose proof (resize_truncates dflt n r Hr Hn) as Hel.
    split; [done|]. unfold size, deque.size in *. rewrite Hel, length_take. lia.
  - apply resize_raise.
  - intros Hn.
    pose proof (resize_include_truncates dflt n r Hn) as Hel.
    split; [done|]. unfold size, deque.size in *. rewrite Hel, length_take. lia.
  - apply resize_include_fills.
Qed.

(** On the ring 1,2,3,4,5 of capacity 5 cut to 2, and on the
    ring 1,2 of capacity 2 raised to 5. *)
Lemma resize_sets_capacity_and_truncates_witness :
  (resize 0 2 (Ring_list [1; 2; 3; 4; 5]) = mkRing [1; 2] 2
   ∧ resize 0 5 (Ring_list [1; 2]) = mkRing [1; 2] 5
   ∧ resize_include 0 2 (Ring_list [1; 2; 3; 4; 5]) = mkRing [1; 2] 2)
  ∧ elems (resize_include 0 5 (Ring_list [1; 2]))
    = [1; 2] ++ replicate (5 - size (Ring_list [1; 2])) 0.
Proof.
  split; [|apply (resize_sets_capacity_and_truncates nat 0 5 (Ring_list [1; 2]));
           vm_compute; lia].
  destruct (resize_sets_capacity_and_truncates nat 0 2
              (Ring_list [1; 2; 3; 4; 5])) as (Hcap & Hcut & _ & Hcap' & Hcut' & _).
  destruct (resize_sets_capacity_and_truncates nat 0 5
              (Ring_list [1; 2])) as (Hcap5 & _ & Hkeep & _).
  destruct Hcut as [Hel _]; [vm_compute; lia | vm_compute; lia |].
  destruct Hcut' as [Hel' _]; [vm_compute; lia |].
  specialize (Hkeep ltac:(vm_compute; lia)).
  split; [|split].
  - destruct (resize 0 2 (Ring_list [1; 2; 3; 4; 5])) as [d c].
    unfold max_size in Hcap. simpl in Hcap, Hel. by rewrite Hcap, Hel.
  - destruct (resize 0 5 (Ring_list [1; 2])) as [d c].
    unfold max_size in Hcap5. simpl in Hcap5, Hkeep. by rewrite Hcap5, Hkeep.
  - destruct (resize_include 0 2 (Ring_list [1; 2; 3; 4; 5])) as [d c].
    unfold max_size in Hcap'. simpl in Hcap', Hel'. by rewrite Hcap', Hel'.
Defined.

(** ** Blocking pops with a stop flag *)

Section wait_facts.
Context {T : Type}.
Implicit Types (r : Ring T) (w : wakeup T) (trace : list (wakeup T)).

(** The two loops differ only in the end the element is taken from. *)
Lemma pop_front_wait_ready trace r :
  elems r ≠ [] → pop_front_wait trace r = take_front r.
Proof. destruct trace, (elems r) eqn:Hd; simpl; rewrite Hd; done. Qed.

Lemma pop_back_wait_ready trace r :
  elems r ≠ [] → pop_back_wait trace r = take_back r.
Proof. destruct trace, (elems r) eqn:Hd; simpl; rewrite Hd; done. Qed.

Lemma pop_front_wait_step w trace r :
  elems r = [] →
  pop_front_wait (w :: trace) r =
    if negb (deque.empty (elems (others w r))) then take_front (others w r)
    else if negb (stop w) then Returned None (others w r)
    else pop_front_wait trace (others w r).
Proof. intros Hd. simpl. by rewrite Hd. Qed.

Lemma pop_back_wait_step w trace r :
  elems r = [] →
  pop_back_wait (w :: trace) r =
    if negb (deque.empty (elems (others w r))) then take_back (others w r)
    else if negb (stop w) then Returned None (others w r)
    else pop_back_wait trace (others w r).
Proof. intros Hd. simpl. by rewrite Hd. Qed.

Lemma take_front_cons r x d :
  elems r = x :: d → take_front r = Returned (Some x) (mkRing d (_capacity r)).
Proof.
  unfold take_front. intros ->. simpl. by rewrite deque_pop_front_cons.
Qed.

Lemma take_back_snoc r d x :
  elems r = d ++ [x] → take_back r = Returned (Some x) (mkRing d (_capacity r)).
Proof.
  unfold take_back, deque.back. intros ->.
  by rewrite deque_pop_back_snoc, last_snoc.
Qed.

(** While the flag reads [true] and the ring stays empty the call goes on
    waiting: it has not returned when the wake-ups end. *)
Lemma pop_front_wait_blocked trace r :
  elems r = [] →
  Forall (λ w, stop w = true ∧ ∀ r', elems r' = [] → elems (others w r') = [])
         trace →
  ∃ r', pop_front_wait trace r = Blocked r' ∧ elems r' = [].
Proof.
  intros Hd Htrace. revert r Hd.
  induction Htrace as [|w trace [Hstop Hkeep] _ IH]; intros r Hd.
  - exists r. simpl. by rewrite Hd.
  - rewrite pop_front_wait_step by done.
    rewrite (Hkeep r Hd), Hstop. simpl. apply IH. by apply Hkeep.
Qed.
End wait_facts.

(** C4.  [pop_front_wait(stop)] and [pop_back_wait(stop)]:
    a ring that holds an element when the call starts, or that the other
    threads fill within an interval, gives up the element at the named end,
    which is removed; when an interval ends with the ring still empty and the
    flag reads [false], the call returns the empty optional; when the flag
    reads [true] the call waits for the next interval.  The result is always
    one of these: an empty ring raises nothing. *)
Theorem C4_pop_wait_returns_or_gives_up
    (T : Type) (w : wakeup T) (trace : list (wakeup T)) (r : Ring T) :
  (∀ x d, elems r = x :: d →
     pop_front_wait trace r = Returned (Some x) (mkRing d (max_size r)))
  ∧ (∀ d x, elems r = d ++ [x] →
     pop_back_wait trace r = Returned (Some x) (mkRing d (max_size r)))
  ∧ (elems r = [] →
     (∀ x d, elems (others w r) = x :: d →
        pop_front_wait (w :: trace) r
        = Returned (Some x) (mkRing d (max_size (others w r))))
     ∧ (∀ d x, elems (others w r) = d ++ [x] →
        pop_back_wait (w :: trace) r
        = Returned (Some x) (mkRing d (max_size (others w r))))
     ∧ (elems (others w r) = [] → stop w = false →
        pop_front_wait (w :: trace) r = Returned None (others w r)
        ∧ pop_back_wait (w :: trace) r = Returned None (others w r))
     ∧ (elems (others w r) = [] → stop w = true →
        pop_front_wait (w :: trace) r = pop_front_wait trace (others w r)
        ∧ pop_back_wait (w :: trace) r = pop_back_wait trace (others w r))).
Proof.
  split; [|split].
  - intros x d Hd. rewrite pop_front_wait_ready by (by rewrite Hd).
    by apply take_front_cons.
  - intros d x Hd. rewrite pop_back_wait_ready by (rewrite Hd; by destruct d).
    by apply take_back_snoc.
  - intros Hempty.
    rewrite pop_front_wait_step, pop_back_wait_step by done.
    split; [|split; [|split]].
    + intros x d Hd. rewrite Hd. simpl. by apply take_front_cons.
    + intros d x Hd. rewrite Hd.
      replace (negb (deque.empty (d ++ [x]))) with true by (by destruct d).
      apply take_back_snoc. done.
    + intros Hd Hstop. by rewrite Hd, Hstop.
    + intros Hd Hstop. by rewrite Hd, Hstop.
Qed.

(** C4 on the empty ring of capacity 2: a producer pushes 7 within the
    interval and the consumer receives 7; nothing arrives and the flag reads
    [false], and the consumer receives the empty optional; nothing arrives
    and the flag reads [true], and the consumer is still waiting.  On the
    ring 1,2,3 the consumer receives 1 (front) or 3 (back) at once. *)
Lemma C4_pop_wait_returns_or_gives_up_witness :
  (pop_front_wait [mkWakeup (push_back 7) true] (Ring_capacity 2)
     = Returned (Some 7) (mkRing [] 2)
   ∧ pop_back_wait [mkWakeup (λ r, r) false] (Ring_capacity 2 : Ring nat)
     = Returned None (Ring_capacity 2))
  ∧ (pop_front_wait [mkWakeup (λ r, r) true] (Ring_capacity 2 : Ring nat)
       = Blocked (Ring_capacity 2)
     ∧ pop_front_wait [] (Ring_list [1; 2; 3]) = Returned (Some 1) (mkRing [2; 3] 3)
     ∧ pop_back_wait [] (Ring_list [1; 2; 3]) = Returned (Some 3) (mkRing [1; 2] 3)).
Proof.
  split; [|
    destruct (C4_pop_wait_returns_or_gives_up nat
                (mkWakeup (λ r, r) true) [] (Ring_capacity 2))
      as (_ & _ & Hwait);
    destruct (C4_pop_wait_returns_or_gives_up nat
                (mkWakeup (λ r, r) true) [] (Ring_list [1; 2; 3]))
      as (Hf & Hb & _);
    destruct (Hwait eq_refl) as (_ & _ & _ & Hon);
    split; [exact (proj1 (Hon eq_refl eq_refl))|];
    split; [exact (Hf 1 [2; 3] eq_refl) | exact (Hb [1; 2] 3 eq_refl)]].
  destruct (C4_pop_wait_returns_or_gives_up nat
              (mkWakeup (push_back 7) true) [] (Ring_capacity 2))
    as (_ & _ & Hfill).
  destruct (C4_pop_wait_returns_or_gives_up nat
              (mkWakeup (λ r, r) false) [] (Ring_capacity 2))
    as (_ & _ & Hidle).
  destruct (Hfill eq_refl) as (Hfront & _).
  destruct (Hidle eq_refl) as (_ & _ & Hnone & _).
  split.
  - exact (Hfront 7 [] eq_refl).
  - exact (proj2 (Hnone eq_refl eq_refl)).
Defined.

(** * Further properties *)

(** ** Runs of pushes: the most recent elements survive *)

Section push_runs.
Context {T : Type}.
Implicit Types (r : Ring T) (v : T) (vs : list T).

Lemma push_back_elems_bounded v r :
  bounded r →
  elems (push_back v r)
  = drop (length (elems r ++ [v]) - max_size r) (elems r ++ [v]).
Proof.
  unfold bounded, size, max_size, push_back, deque.push_back, deque.size.
  simpl. rewrite length_app. simpl. intros Hr. case_decide.
  - unfold deque.pop_front.
    by replace (length (elems r) + 1 - _capacity r) with 1 by lia.
  - by replace (length (elems r) + 1 - _capacity r) with 0 by lia.
Qed.

Lemma push_front_elems_bounded v r :
  bounded r → elems (push_front v r) = take (max_size r) (v :: elems r).
Proof.
  unfold bounded, size, max_size, push_front, deque.push_front, deque.size.
  simpl. intros Hr. case_decide.
  - unfold deque.pop_back. simpl.
    by replace (length (elems r) - 0) with (_capacity r) by lia.
  - rewrite take_ge; [done | simpl; lia].
Qed.

Lemma take_app_take (n : nat) (l k : list T) :
  take n (l ++ take n k) = take n (l ++ k).
Proof.
  rewrite !take_app, take_take. f_equal. f_equal. lia.
Qed.
End push_runs.

(** X1.  Pushing the values [vs] one after the other at the back of a ring
    that is within its capacity leaves the last [max_size()] elements of the
    old contents followed by [vs]; the capacity stays. *)
Theorem push_back_run_keeps_most_recent
    (T : Type) (vs : list T) (r : Ring T) :
  bounded r →
  elems (foldl (λ r v, push_back v r) r vs)
  = drop (length (elems r ++ vs) - max_size r) (elems r ++ vs)
  ∧ max_size (foldl (λ r v, push_back v r) r vs) = max_size r.
Proof.
  revert r. induction vs as [|v vs IH]; intros r Hr; simpl.
  - split; [|done]. rewrite app_nil_r.
    unfold bounded, size, deque.size in Hr.
    by replace (length (elems r) - max_size r) with 0 by lia.
  - destruct (IH (push_back v r) (push_back_bounded v r Hr)) as [Hel Hcap].
    rewrite Hel, Hcap, push_back_max_size. split; [|done].
    rewrite push_back_elems_bounded by done.
    set (A := elems r ++ [v]).
    replace (elems r ++ v :: vs) with (A ++ vs)
      by (unfold A; by rewrite <- app_assoc).
    assert (length A - max_size r ≤ length A) as Hk by lia.
    rewrite <- (drop_app_le A vs _ Hk), drop_drop. f_equal.
    rewrite length_drop, !length_app. lia.
Qed.

(** X1 on the ring 1,2 of capacity 3, pushing 3,4,5. *)
Lemma push_back_run_keeps_most_recent_witness :
  elems (foldl (λ r v, push_back v r) (mkRing [1; 2] 3) [3; 4; 5]) = [3; 4; 5].
Proof.
  destruct (push_back_run_keeps_most_recent nat [3; 4; 5] (mkRing [1; 2] 3))
    as [Hel _]; [vm_compute; lia|].
  exact Hel.
Defined.

(** X2.  Pushing the values [vs] one after the other at the front of a ring
    that is within its capacity leaves the first [max_size()] elements of
    [vs] reversed followed by the old contents; the capacity stays. *)
Theorem push_front_run_keeps_most_recent
    (T : Type) (vs : list T) (r : Ring T) :
  bounded r →
  elems (foldl (λ r v, push_front v r) r vs)
  = take (max_size r) (reverse vs ++ elems r)
  ∧ max_size (foldl (λ r v, push_front v r) r vs) = max_size r.
Proof.
  revert r. induction vs as [|v vs IH]; intros r Hr; simpl.
  - split; [|done]. rewrite take_ge; [done|].
    unfold bounded, size, deque.size in Hr. done.
  - destruct (IH (push_front v r) (push_front_bounded v r Hr)) as [Hel Hcap].
    rewrite Hel, Hcap, push_front_max_size. split; [|done].
    rewrite push_front_elems_bounded by done.
    rewrite take_app_take, reverse_cons, <- app_assoc. done.
Qed.

(** X2 on the ring 1,2 of capacity 3, pushing 3,4,5. *)
Lemma push_front_run_keeps_most_recent_witness :
  elems (foldl (λ r v, push_front v r) (mkRing [1; 2] 3) [3; 4; 5]) = [5; 4; 3].
Proof.
  destruct (push_front_run_keeps_most_recent nat [3; 4; 5] (mkRing [1; 2] 3))
    as [Hel _]; [vm_compute; lia|].
  exact Hel.
Defined.

(** ** The bound over runs of calls *)

(** X3.  Starting from no rings at all, any run of bound-keeping calls
    leaves every ring with [size() <= max_size()]: constructions with a
    capacity, from an initializer list or from a range whose distance the
    constructor does not undercount (every forward range), and the calls
    [resize], [push_front], [push_back], [pop_front], [pop_back], the
    blocking pops among threads that keep the ring within its capacity,
    [shrink_to_fit] and [assign].  [swap], copy assignment, the assignment
    operators inherited from the deque and construction from an undercounted
    single-pass range are not among them. *)
Theorem bound_keeping_calls_keep_bound
    (T : Type) (dflt : T) (cs : list (call T)) (this : nat) (r : Ring T) :
  Forall bound_keeping cs → run dflt cs ∅ !! this = Some r →
  size r ≤ max_size r.
Proof.
  intros Hcs Hr.
  assert (all_bounded (run dflt cs ∅)) as Hall.
  { apply run_bound_keeping; [done|]. intros a r'. by rewrite lookup_empty. }
  by apply (Hall this r).
Qed.

(** X3 on a ring built from the forward range 1,2 that receives three
    pushes, is resized to 1 and then assigned a range of three. *)
Lemma bound_keeping_calls_keep_bound_witness :
  size (mkRing [7; 8; 9] 3) ≤ max_size (mkRing [7; 8; 9] 3).
Proof.
  apply (bound_keeping_calls_keep_bound nat 0
           [CRingRange 0 (forward_range [1; 2]); CPushBack 0 1; CPushBack 0 2;
            CPushFront 0 3; CResize 0 1; CAssign 0 [7; 8; 9]] 0).
  - repeat constructor.
  - vm_compute. reflexivity.
Defined.

(** The calls left out of [bound_keeping] do break the bound: the inherited
    [operator=] on a ring of capacity 1, and construction from a single-pass
    range. *)
Lemma inherited_assign_and_single_pass_exceed_capacity :
  run 0 [CRing 0 1; CDequeAssign 0 [1; 2; 3]] ∅ !! 0 = Some (mkRing [1; 2; 3] 1)
  ∧ run 0 [CRingRange 0 (istream_range [1; 2; 3])] ∅ !! 0
    = Some (mkRing [1; 2; 3] 1).
Proof. split; vm_compute; reflexivity. Qed.

Section two_rings_bound.
Context {T : Type}.
Implicit Types (σ : gmap nat (Ring T)) (a b : Ring T) (this that : nat).

Lemma swap_comm this that σ : swap this that σ = swap that this σ.
Proof.
  destruct (decide (this = that)) as [->|Hne]; [done|].
  unfold swap. rewrite !decide_False by done.
  destruct (σ !! this) as [a|], (σ !! that) as [b|]; try done.
  by apply insert_insert_ne.
Qed.

Lemma Ring_eta (a : Ring T) : mkRing (elems a) (_capacity a) = a.
Proof. by destruct a. Qed.

Lemma swap_swap this that σ : swap this that (swap this that σ) = σ.
Proof.
  destruct (decide (this = that)) as [->|Hne]; [by rewrite !swap_self|].
  destruct (σ !! this) as [a|] eqn:Ha; [|unfold swap at 2;
    rewrite decide_False, Ha by done; unfold swap;
    by rewrite decide_False, Ha by done].
  destruct (σ !! that) as [b|] eqn:Hb; [|unfold swap at 2;
    rewrite decide_False, Ha, Hb by done; unfold swap;
    by rewrite decide_False, Ha, Hb by done].
  pose proof (swap_this this that σ a b Hne Ha Hb) as Hthis.
  pose proof (swap_that this that σ a b Hne Ha Hb) as Hthat.
  apply map_eq. intros i.
  destruct (decide (i = this)) as [->|Hi].
  - rewrite (swap_this _ _ _ _ _ Hne Hthis Hthat). simpl.
    by rewrite Ring_eta, Ha.
  - destruct (decide (i = that)) as [->|Hi'].
    + rewrite (swap_that _ _ _ _ _ Hne Hthis Hthat). simpl.
      by rewrite Ring_eta, Hb.
    + by rewrite !swap_frame.
Qed.
End two_rings_bound.

(** X4.  For two distinct rings [a] and [b]: after [a = b] the ring [a] is
    within its capacity exactly when [b] held at most [a.max_size()]
    elements; after [a.swap(b)] both rings are within their capacities
    exactly when each held at most the other's capacity. *)
Theorem two_ring_calls_keep_bound_iff
    (T : Type) (σ : gmap nat (Ring T)) (this that : nat) (a b : Ring T) :
  this ≠ that → σ !! this = Some a → σ !! that = Some b →
  (∃ a', copy_assign this that σ !! this = Some a'
         ∧ (bounded a' ↔ size b ≤ max_size a))
  ∧ (∃ a' b', swap this that σ !! this = Some a'
              ∧ swap this that σ !! that = Some b'
              ∧ (bounded a' ∧ bounded b'
                 ↔ size b ≤ max_size a ∧ size a ≤ max_size b)).
Proof.
  intros Hne Ha Hb. split.
  - eexists. split; [by apply copy_assign_this|]. done.
  - eexists _, _. split; [by eapply swap_this|].
    split; [by eapply swap_that|]. done.
Qed.

(** X4 with [a] = 1,2,3 (capacity 3) and [b] = 7 (capacity 1): [a = b]
    keeps [a] within its capacity. *)
Lemma two_ring_calls_keep_bound_iff_witness :
  ∃ a', copy_assign 0 1 (<[1 := Ring_list [7]]> {[0 := Ring_list [1; 2; 3]]}) !! 0
          = Some a'
        ∧ (bounded a' ↔ size (Ring_list [7]) ≤ max_size (Ring_list [1; 2; 3])).
Proof.
  destruct (two_ring_calls_keep_bound_iff nat
              (<[1 := Ring_list [7]]> {[0 := Ring_list [1; 2; 3]]}) 0 1
              (Ring_list [1; 2; 3]) (Ring_list [7])) as [Hcopy _].
  - lia.
  - vm_compute. reflexivity.
  - vm_compute. reflexivity.
  - exact Hcopy.
Defined.

(** X5.  [swap] does not depend on which of the two rings it is called on,
    and swapping twice restores every ring of the store, capacities
    included. *)
Theorem swap_symmetric_and_involutive
    (T : Type) (σ : gmap nat (Ring T)) (this that : nat) :
  swap this that σ = swap that this σ
  ∧ swap this that (swap this that σ) = σ
  ∧ swap that this (swap this that σ) = σ.
Proof.
  split; [apply swap_comm|]. split; [apply swap_swap|].
  rewrite (swap_comm that this). apply swap_swap.
Qed.

(** ** Pushes and pops together *)

Section push_pop.
Context {T : Type}.
Implicit Types (r : Ring T) (v : T).

Lemma pop_back_push_back_room v r :
  size r < max_size r → pop_back (push_back v r) = (Some v, r).
Proof.
  intros Hroom.
  assert (elems (push_back v r) = elems r ++ [v]) as Hel
    by (apply push_back_fits; lia).
  rewrite (pop_back_snoc _ _ _ Hel). simpl. by destruct r.
Qed.

Lemma pop_front_push_front_room v r :
  size r < max_size r → pop_front (push_front v r) = (Some v, r).
Proof.
  intros Hroom.
  assert (elems (push_front v r) = v :: elems r) as Hel
    by (apply push_front_fits; lia).
  rewrite (pop_front_cons _ _ _ Hel). simpl. by destruct r.
Qed.

(** A ring that is exactly full. *)
Lemma push_back_full v r :
  size r = max_size r → elems (push_back v r) = drop 1 (elems r ++ [v]).
Proof.
  intros Hfull. rewrite push_back_elems_bounded by (unfold bounded; lia).
  f_equal. unfold size, deque.size in Hfull. rewrite length_app. simpl. lia.
Qed.

Lemma push_front_full v r :
  size r = max_size r → elems (push_front v r) = take (size r) (v :: elems r).
Proof.
  intros Hfull. rewrite push_front_elems_bounded by (unfold bounded; lia).
  by rewrite Hfull.
Qed.
End push_pop.

(** X6.  On a ring with room, a push followed by the pop at the same end
    returns the pushed value and restores the ring. *)
Theorem push_then_pop_same_end (T : Type) (v : T) (r : Ring T) :
  size r < max_size r →
  pop_back (push_back v r) = (Some v, r)
  ∧ pop_front (push_front v r) = (Some v, r).
Proof.
  intros Hroom.
  split; [by apply pop_back_push_back_room | by apply pop_front_push_front_room].
Qed.

(** X6 on the ring 1,2 of capacity 3. *)
Lemma push_then_pop_same_end_witness :
  pop_back (push_back 9 (mkRing [1; 2] 3)) = (Some 9, mkRing [1; 2] 3)
  ∧ pop_front (push_front 9 (mkRing [1; 2] 3)) = (Some 9, mkRing [1; 2] 3).
Proof.
  apply (push_then_pop_same_end nat 9 (mkRing [1; 2] 3)). vm_compute. lia.
Defined.

(** X7.  On a ring that is exactly full, a push keeps the element count:
    [push_back] drops the front element and [push_front] drops the back
    element, and the pop at the same end then returns the pushed value
    unless the capacity is 0, where the pushed value itself is dropped. *)
Theorem push_on_full_ring (T : Type) (v : T) (r : Ring T) :
  size r = max_size r →
  elems (push_back v r) = drop 1 (elems r ++ [v])
  ∧ elems (push_front v r) = take (size r) (v :: elems r)
  ∧ size (push_back v r) = size r
  ∧ size (push_front v r) = size r
  ∧ (0 < max_size r →
       (pop_back (push_back v r)).1 = Some v
       ∧ (pop_front (push_front v r)).1 = Some v)
  ∧ (max_size r = 0 →
       (pop_back (push_back v r)).1 = None
       ∧ (pop_front (push_front v r)).1 = None).
Proof.
  intros Hfull.
  pose proof (push_back_full v r Hfull) as Hb.
  pose proof (push_front_full v r Hfull) as Hf.
  split; [done|]. split; [done|].
  split; [rewrite push_back_size; case_decide; lia|].
  split; [rewrite push_front_size; case_decide; lia|].
  unfold size, deque.size in *. split.
  - intros Hpos. destruct (elems r) as [|x d] eqn:Hd; [simpl in *; lia|].
    split.
    + change (drop 1 ((x :: d) ++ [v])) with (d ++ [v]) in Hb.
      by rewrite (pop_back_snoc _ _ _ Hb).
    + change (take (length (x :: d)) (v :: x :: d))
        with (v :: take (length d) (x :: d)) in Hf.
      by rewrite (pop_front_cons _ _ _ Hf).
  - intros Hzero. rewrite Hzero in Hfull.
    apply length_zero_iff_nil in Hfull. rewrite Hfull in Hb, Hf.
    change (elems (push_back v r) = []) in Hb.
    change (elems (push_front v r) = []) in Hf.
    split; [by rewrite (pop_back_empty _ Hb) | by rewrite (pop_front_empty _ Hf)].
Qed.

(** X7 on the full ring 1,2,3 and on the ring of capacity 0. *)
Lemma push_on_full_ring_witness :
  (elems (push_back 4 (Ring_list [1; 2; 3])) = drop 1 ([1; 2; 3] ++ [4])
   ∧ (pop_back (push_back 4 (Ring_list [1; 2; 3]))).1 = Some 4)
  ∧ (pop_back (push_back 4 (Ring_capacity 0))).1 = None.
Proof.
  destruct (push_on_full_ring nat 4 (Ring_list [1; 2; 3]))
    as (Hb & _ & _ & _ & Hpos & _); [vm_compute; lia|].
  destruct (push_on_full_ring nat 4 (Ring_capacity 0))
    as (_ & _ & _ & _ & _ & Hzero); [vm_compute; lia|].
  split; [split; [exact Hb | apply Hpos; vm_compute; lia]|].
  apply Hzero. reflexivity.
Defined.

(** X8.  Rings built from elements, rings after [shrink_to_fit] (whatever
    they held, overfull or not) and, in [src/include/ring.h], rings after
    [resize] are exactly full, so the first push already drops an element at
    the other end and the element count stays. *)
Theorem first_push_after_tight_capacity
    (T : Type) (dflt : T) (v : T) (l : list T) (n : nat) (r : Ring T) :
  elems (push_back v (Ring_list l)) = drop 1 (l ++ [v])
  ∧ elems (push_front v (Ring_list l)) = take (length l) (v :: l)
  ∧ elems (push_back v (shrink_to_fit r)) = drop 1 (elems r ++ [v])
  ∧ elems (push_front v (shrink_to_fit r)) = take (size r) (v :: elems r)
  ∧ size (push_back v (shrink_to_fit r)) = size r
  ∧ size (push_back v (resize_include dflt n r)) = n
  ∧ size (push_front v (resize_include dflt n r)) = n.
Proof.
  assert (size (resize_include dflt n r) = n) as Hn
    by (unfold resize_include, size; simpl; apply deque_resize_size).
  split; [by apply (push_back_full v (Ring_list l))|].
  split; [by apply (push_front_full v (Ring_list l))|].
  split; [by apply (push_back_full v (shrink_to_fit r))|].
  split; [by apply (push_front_full v (shrink_to_fit r))|].
  split.
  { rewrite push_back_size. case_decide as Hlt; [|done].
    unfold shrink_to_fit, size, max_size in Hlt. simpl in Hlt. lia. }
  split.
  - rewrite push_back_size, Hn. case_decide; [|done].
    unfold resize_include, max_size in *. simpl in *. lia.
  - rewrite push_front_size, Hn. case_decide; [|done].
    unfold resize_include, max_size in *. simpl in *. lia.
Qed.

(** ** More on [resize] *)

Section resize_more.
Context {T : Type}.
Implicit Types (r : Ring T) (d : list T) (dflt : T) (n m : nat).

Lemma deque_resize_resize dflt m n d :
  m ≤ n ∨ deque.size d ≤ n →
  deque.resize dflt m (deque.resize dflt n d) = deque.resize dflt m d.
Proof.
  unfold deque.size. intros Hmn.
  destruct (decide (length d ≤ n)) as [Hd|Hd].
  - rewrite (deque_resize_grow dflt n d) by done.
    unfold deque.resize, deque.size.
    rewrite take_app, take_replicate, length_app, length_replicate.
    rewrite <- app_assoc, <- replicate_add. do 2 f_equal. lia.
  - assert (m ≤ n) as Hm by lia.
    rewrite (deque_resize_shrink dflt n d) by (unfold deque.size; lia).
    rewrite !deque_resize_shrink
      by (unfold deque.size; rewrite ?length_take; lia).
    rewrite take_take. f_equal. lia.
Qed.

Lemma resize_bounded_iff dflt n r :
  bounded (resize dflt n r) ↔ n < max_size r ∨ size r ≤ n.
Proof.
  unfold bounded, resize, size, max_size. simpl. case_decide.
  - rewrite deque_resize_size. split; [by left | lia].
  - split; [by right | intros [?|?]; lia].
Qed.

Lemma resize_resize_same dflt n r :
  resize dflt n (resize dflt n r) = resize dflt n r.
Proof.
  unfold resize at 1. simpl. rewrite decide_False by lia. done.
Qed.
End resize_more.

(** X9.  [resize] of [src/ring.h].  A size below the current capacity
    leaves exactly that many elements: the first [n], followed by
    value-initialised elements when fewer than [n] were stored.  The ring is
    within its capacity afterwards exactly when the size was below the old
    capacity or at least the old element count, so an overfull ring resized
    between its capacity and its element count stays overfull.  Resizing
    twice to the same size is resizing once. *)
Theorem resize_below_capacity_and_bound
    (T : Type) (dflt : T) (n : nat) (r : Ring T) :
  (n < max_size r →
     elems (resize dflt n r) = take n (elems r) ++ replicate (n - size r) dflt
     ∧ size (resize dflt n r) = n)
  ∧ (bounded (resize dflt n r) ↔ n < max_size r ∨ size r ≤ n)
  ∧ resize dflt n (resize dflt n r) = resize dflt n r.
Proof.
  split; [|split; [apply resize_bounded_iff | apply resize_resize_same]].
  intros Hn. pose proof (resize_below_capacity dflt n r Hn) as Hel.
  split; [done|]. unfold size. rewrite Hel. apply deque_resize_size.
Qed.

(** X9 on the empty ring of capacity 4 resized to 2. *)
Lemma resize_below_capacity_and_bound_witness :
  elems (resize 0 2 (Ring_capacity 4)) = [0; 0]
  ∧ size (resize 0 2 (Ring_capacity 4)) = 2.
Proof.
  apply (resize_below_capacity_and_bound nat 0 2 (Ring_capacity 4)).
  vm_compute. lia.
Defined.

(** X10.  [resize] of [src/include/ring.h] always leaves exactly [n]
    elements under capacity [n].  Two resizes in a row act as the second
    alone when the second size is at most the first, or when the first cut
    nothing off; elements cut off by the first are not brought back by the
    second. *)
Theorem resize_include_exact_and_composes
    (T : Type) (dflt : T) (m n : nat) (r : Ring T) :
  size (resize_include dflt n r) = n
  ∧ bounded (resize_include dflt n r)
  ∧ (m ≤ n ∨ size r ≤ n →
       resize_include dflt m (resize_include dflt n r)
       = resize_include dflt m r)
  ∧ (n < size r → n < m →
       elems (resize_include dflt m (resize_include dflt n r))
       = take n (elems r) ++ replicate (m - n) dflt).
Proof.
  split; [unfold resize_include, size; simpl; apply deque_resize_size|].
  split; [apply resize_include_bounded|]. split.
  - intros Hmn. unfold resize_include. simpl.
    by rewrite deque_resize_resize.
  - intros Hn Hm. unfold resize_include, size, deque.size in *. simpl.
    rewrite (deque_resize_shrink dflt n (elems r)) by (unfold deque.size; lia).
    rewrite deque_resize_grow by (unfold deque.size; rewrite length_take; lia).
    unfold deque.size. rewrite length_take. do 2 f_equal. lia.
Qed.

(** X10 on the ring 1,2,3: cut to 1 then raised to 3, and raised to 5 then
    cut to 2. *)
Lemma resize_include_exact_and_composes_witness :
  elems (resize_include 0 3 (resize_include 0 1 (Ring_list [1; 2; 3])))
    = take 1 [1; 2; 3] ++ replicate (3 - 1) 0
  ∧ resize_include 0 2 (resize_include 0 5 (Ring_list [1; 2; 3]))
    = resize_include 0 2 (Ring_list [1; 2; 3]).
Proof.
  destruct (resize_include_exact_and_composes nat 0 3 1 (Ring_list [1; 2; 3]))
    as (_ & _ & _ & Hlost).
  destruct (resize_include_exact_and_composes nat 0 2 5 (Ring_list [1; 2; 3]))
    as (_ & _ & Hcomp & _).
  split.
  - apply Hlost; vm_compute; lia.
  - apply Hcomp. left. lia.
Defined.

(** ** More on the blocking pops *)

Section wait_more.
Context {T : Type}.
Implicit Types (r : Ring T) (w : wakeup T) (trace rest : list (wakeup T)).

Lemma deque_empty_false (d : list T) : deque.empty d = false ↔ d ≠ [].
Proof. destruct d; simpl; split; congruence. Qed.

Lemma pop_front_wait_forever_ready trace r :
  elems r ≠ [] → pop_front_wait_forever trace r = take_front r.
Proof. destruct trace, (elems r) eqn:Hd; simpl; rewrite Hd; done. Qed.

Lemma pop_back_wait_forever_ready trace r :
  elems r ≠ [] → pop_back_wait_forever trace r = take_back r.
Proof. destruct trace, (elems r) eqn:Hd; simpl; rewrite Hd; done. Qed.

Lemma take_front_is_Some r :
  elems r ≠ [] → ∃ x r', take_front r = Returned (Some x) r'.
Proof.
  intros Hd. unfold take_front, deque.front.
  destruct (proj2 (head_is_Some (elems r)) Hd) as [x ->]. eauto.
Qed.

Lemma take_back_is_Some r :
  elems r ≠ [] → ∃ x r', take_back r = Returned (Some x) r'.
Proof.
  intros Hd. unfold take_back, deque.back.
  destruct (proj2 (last_is_Some (elems r)) Hd) as [x ->]. eauto.
Qed.

Lemma pop_front_wait_nil r : elems r = [] → pop_front_wait [] r = Blocked r.
Proof. intros Hd. simpl. by rewrite Hd. Qed.

Lemma pop_back_wait_nil r : elems r = [] → pop_back_wait [] r = Blocked r.
Proof. intros Hd. simpl. by rewrite Hd. Qed.

Lemma pop_front_wait_loop trace r :
  pop_front_wait trace r = wait_loop take_front trace r.
Proof.
  revert r. induction trace as [|w trace IH]; intros r; simpl; [done|].
  by rewrite IH.
Qed.

Lemma pop_back_wait_loop trace r :
  pop_back_wait trace r = wait_loop take_back trace r.
Proof.
  revert r. induction trace as [|w trace IH]; intros r; simpl; [done|].
  by rewrite IH.
Qed.

Lemma idle_cons w trace r :
  idle (w :: trace) r
  = if deque.empty (elems (others w r)) then idle trace (others w r) else None.
Proof. done. Qed.

Lemma idle_empty trace r r' :
  elems r = [] → idle trace r = Some r' → elems r' = [].
Proof.
  revert r. induction trace as [|w trace IH]; intros r Hd; simpl.
  - by intros [= <-].
  - destruct (deque.empty (elems (others w r))) eqn:He; [|done].
    apply IH. by apply deque_empty_nil.
Qed.

Section loop.
Context (take : Ring T → outcome T).
Hypothesis take_some :
  ∀ r, elems r ≠ [] → ∃ x r', take r = Returned (Some x) r'.

Lemma wait_loop_ready trace r :
  elems r ≠ [] → wait_loop take trace r = take r.
Proof using Type. destruct trace, (elems r) eqn:Hd; simpl; rewrite Hd; done. Qed.

Lemma wait_loop_nil r : elems r = [] → wait_loop take [] r = Blocked r.
Proof using Type. intros Hd. simpl. by rewrite Hd. Qed.

Lemma wait_loop_step w trace r :
  elems r = [] →
  wait_loop take (w :: trace) r =
    if negb (deque.empty (elems (others w r))) then take (others w r)
    else if negb (stop w) then Returned None (others w r)
    else wait_loop take trace (others w r).
Proof using Type. intros Hd. simpl. by rewrite Hd. Qed.

(** Still waiting: exactly when the ring was empty at the call and at every
    wake-up, and every flag read [true]. *)
Lemma wait_loop_blocked trace r r' :
  wait_loop take trace r = Blocked r'
  ↔ elems r = [] ∧ Forall (λ w, stop w = true) trace ∧ idle trace r = Some r'.
Proof using take_some.
  revert r. induction trace as [|w trace IH]; intros r;
    (destruct (decide (elems r = [])) as [Hd|Hd];
     [|rewrite wait_loop_ready by done;
       destruct (take_some r Hd) as (x & r'' & ->);
       split; [done | by intros [? _]]]).
  - rewrite wait_loop_nil by done. simpl. split.
    + intros [= ->]. auto.
    + by intros (_ & _ & [= ->]).
  - rewrite wait_loop_step, idle_cons by done.
    destruct (decide (elems (others w r) = [])) as [Hd'|Hd'].
    + rewrite (proj2 (deque_empty_nil _) Hd'). cbn [negb].
      destruct (stop w) eqn:Hs; cbn [negb].
      * rewrite IH. split.
        -- intros (_ & Hall & Hidle). split; [done|]. split; [|done].
           by constructor.
        -- intros (_ & Hall & Hidle). apply Forall_cons in Hall as [_ Hall].
           done.
      * split; [done|]. intros (_ & Hall & _).
        apply Forall_cons in Hall as [Hw _]. congruence.
    + rewrite (proj2 (deque_empty_false _) Hd'). cbn [negb].
      destruct (take_some _ Hd') as (x & r'' & ->).
      split; [done | by intros (_ & _ & ?)].
Qed.

(** Giving up: exactly when the ring was empty at the call and at every
    wake-up up to one whose flag read [false], all earlier flags having read
    [true]; the ring handed back is the one seen at that wake-up. *)
Lemma wait_loop_gives_up trace r r' :
  wait_loop take trace r = Returned None r'
  ↔ elems r = []
    ∧ ∃ pre w post, trace = pre ++ w :: post
        ∧ Forall (λ w, stop w = true) pre ∧ stop w = false
        ∧ idle (pre ++ [w]) r = Some r'.
Proof using take_some.
  revert r. induction trace as [|w trace IH]; intros r;
    (destruct (decide (elems r = [])) as [Hd|Hd];
     [|rewrite wait_loop_ready by done;
       destruct (take_some r Hd) as (x & r'' & ->);
       split; [done | by intros [? _]]]).
  - rewrite wait_loop_nil by done. split; [done|].
    intros (_ & pre & w & post & Heq & _). by destruct pre.
  - rewrite wait_loop_step by done.
    destruct (decide (elems (others w r) = [])) as [Hd'|Hd'].
    + rewrite (proj2 (deque_empty_nil _) Hd'). cbn [negb].
      destruct (stop w) eqn:Hs; cbn [negb].
      * rewrite IH. split.
        -- intros (_ & pre & w' & post & -> & Hpre & Hw' & Hidle).
           split; [done|]. exists (w :: pre), w', post.
           split; [done|]. split; [by constructor|]. split; [done|].
           rewrite <- app_comm_cons, idle_cons.
           by rewrite (proj2 (deque_empty_nil _) Hd').
        -- intros (_ & pre & w' & post & Heq & Hpre & Hw' & Hidle).
           destruct pre as [|p pre]; simpl in Heq.
           { injection Heq as <- _. congruence. }
           injection Heq as <- ->.
           apply Forall_cons in Hpre as [_ Hpre].
           rewrite <- app_comm_cons, idle_cons in Hidle.
           rewrite (proj2 (deque_empty_nil _) Hd') in Hidle.
           split; [done|]. by exists pre, w', post.
      * split.
        -- intros [= <-]. split; [done|]. exists [], w, trace.
           split; [done|]. split; [constructor|]. split; [done|].
           simpl. by rewrite (proj2 (deque_empty_nil _) Hd').
        -- intros (_ & pre & w' & post & Heq & Hpre & Hw' & Hidle).
           destruct pre as [|p pre]; simpl in Heq.
           ++ injection Heq as <- _. simpl in Hidle.
              rewrite (proj2 (deque_empty_nil _) Hd') in Hidle.
              by injection Hidle as <-.
           ++ injection Heq as <- _.
              apply Forall_cons in Hpre as [Hp _]. congruence.
    + rewrite (proj2 (deque_empty_false _) Hd'). cbn [negb].
      destruct (take_some _ Hd') as (x & r'' & ->).
      split; [done|].
      intros (_ & pre & w' & post & Heq & _ & _ & Hidle).
      destruct pre as [|p pre]; simpl in Heq; injection Heq as <- _;
        rewrite <- ?app_comm_cons in Hidle; simpl in Hidle;
        by rewrite (proj2 (deque_empty_false _) Hd') in Hidle.
Qed.
End loop.

Lemma pop_front_wait_app trace rest r :
  pop_front_wait (trace ++ rest) r
  = resume (pop_front_wait trace r) (pop_front_wait rest).
Proof.
  revert r. induction trace as [|w trace IH]; intros r;
    (destruct (decide (elems r = [])) as [Hd|Hd];
     [|by rewrite !pop_front_wait_ready by done]).
  - by rewrite pop_front_wait_nil by done.
  - rewrite <- app_comm_cons, !pop_front_wait_step by done.
    destruct (negb (deque.empty (elems (others w r)))); [done|].
    destruct (negb (stop w)); [done | apply IH].
Qed.

Lemma pop_back_wait_app trace rest r :
  pop_back_wait (trace ++ rest) r
  = resume (pop_back_wait trace r) (pop_back_wait rest).
Proof.
  revert r. induction trace as [|w trace IH]; intros r;
    (destruct (decide (elems r = [])) as [Hd|Hd];
     [|by rewrite !pop_back_wait_ready by done]).
  - by rewrite pop_back_wait_nil by done.
  - rewrite <- app_comm_cons, !pop_back_wait_step by done.
    destruct (negb (deque.empty (elems (others w r)))); [done|].
    destruct (negb (stop w)); [done | apply IH].
Qed.

Lemma pop_front_wait_forever_outcome trace r :
  match pop_front_wait_forever trace r with
  | Returned v _ => is_Some v
  | Blocked r' => elems r' = []
  end.
Proof.
  revert r. induction trace as [|w trace IH]; intros r;
    (destruct (decide (elems r = [])) as [Hd|Hd];
     [|rewrite pop_front_wait_forever_ready by done;
       destruct (take_front_is_Some r Hd) as (x & r' & ->); by eexists]).
  - simpl. by rewrite Hd.
  - simpl. rewrite Hd. simpl. apply IH.
Qed.

Lemma pop_back_wait_forever_outcome trace r :
  match pop_back_wait_forever trace r with
  | Returned v _ => is_Some v
  | Blocked r' => elems r' = []
  end.
Proof.
  revert r. induction trace as [|w trace IH]; intros r;
    (destruct (decide (elems r = [])) as [Hd|Hd];
     [|rewrite pop_back_wait_forever_ready by done;
       destruct (take_back_is_Some r Hd) as (x & r' & ->); by eexists]).
  - simpl. by rewrite Hd.
  - simpl. rewrite Hd. simpl. apply IH.
Qed.
End wait_more.

(** X11.  While the stop flag reads [true] at every wake-up,
    [pop_front_wait(stop)] and [pop_back_wait(stop)] never return the empty
    optional: after the wake-ups they have either returned an element or are
    still waiting on an empty ring.  Setting the flag does not end a wait. *)
Theorem flag_held_never_gives_up
    (T : Type) (trace : list (wakeup T)) (r : Ring T) :
  Forall (λ w, stop w = true) trace →
  ((∃ x r', pop_front_wait trace r = Returned (Some x) r')
   ∨ (∃ r', pop_front_wait trace r = Blocked r' ∧ elems r' = []))
  ∧ ((∃ x r', pop_back_wait trace r = Returned (Some x) r')
     ∨ (∃ r', pop_back_wait trace r = Blocked r' ∧ elems r' = [])).
Proof.
  intros Hheld.
  assert (∀ take : Ring T → outcome T,
            (∀ r, elems r ≠ [] → ∃ x r', take r = Returned (Some x) r') →
            (∃ x r', wait_loop take trace r = Returned (Some x) r')
            ∨ (∃ r', wait_loop take trace r = Blocked r' ∧ elems r' = []))
    as Hloop.
  { intros take Htake.
    destruct (wait_loop take trace r) as [[x|] r'|r'] eqn:Hout.
    - left. eauto.
    - apply (wait_loop_gives_up take Htake) in Hout
        as (_ & pre & w & post & -> & _ & Hw & _).
      apply Forall_app in Hheld as [_ Hheld].
      apply Forall_cons in Hheld as [Hw' _]. congruence.
    - right. exists r'. split; [done|].
      apply (wait_loop_blocked take Htake) in Hout as (Hd & _ & Hidle).
      by apply (idle_empty trace r). }
  rewrite pop_front_wait_loop, pop_back_wait_loop.
  split; apply Hloop; [apply take_front_is_Some | apply take_back_is_Some].
Qed.

(** X11 on the empty ring of capacity 2 with two idle intervals under a set
    flag: the consumer is still waiting. *)
Lemma flag_held_never_gives_up_witness :
  (∃ x r', pop_front_wait [mkWakeup (λ r, r) true; mkWakeup (λ r, r) true]
             (Ring_capacity 2 : Ring nat) = Returned (Some x) r')
  ∨ (∃ r', pop_front_wait [mkWakeup (λ r, r) true; mkWakeup (λ r, r) true]
             (Ring_capacity 2 : Ring nat) = Blocked r' ∧ elems r' = []).
Proof.
  apply (flag_held_never_gives_up nat
           [mkWakeup (λ r, r) true; mkWakeup (λ r, r) true] (Ring_capacity 2)).
  repeat constructor.
Defined.

(** X12.  [pop_front_wait(stop)] and [pop_back_wait(stop)] return the empty
    optional exactly when the ring is empty at the call and at every wake-up
    up to one at which the flag reads [false], the flag having read [true]
    at all wake-ups before; the ring is then as that wake-up found it.  They
    are still waiting after the wake-ups exactly when the ring was empty at
    the call and at every wake-up and every flag read [true]. *)
Theorem flagged_wait_gives_up_exactly
    (T : Type) (trace : list (wakeup T)) (r r' : Ring T) :
  (pop_front_wait trace r = Returned None r'
   ↔ elems r = []
     ∧ ∃ pre w post, trace = pre ++ w :: post
         ∧ Forall (λ w, stop w = true) pre ∧ stop w = false
         ∧ idle (pre ++ [w]) r = Some r')
  ∧ (pop_front_wait trace r = Blocked r'
     ↔ elems r = [] ∧ Forall (λ w, stop w = true) trace
       ∧ idle trace r = Some r')
  ∧ (pop_back_wait trace r = Returned None r'
     ↔ elems r = []
       ∧ ∃ pre w post, trace = pre ++ w :: post
           ∧ Forall (λ w, stop w = true) pre ∧ stop w = false
           ∧ idle (pre ++ [w]) r = Some r')
  ∧ (pop_back_wait trace r = Blocked r'
     ↔ elems r = [] ∧ Forall (λ w, stop w = true) trace
       ∧ idle trace r = Some r').
Proof.
  rewrite pop_front_wait_loop, pop_back_wait_loop.
  split; [apply wait_loop_gives_up, take_front_is_Some|].
  split; [apply wait_loop_blocked, take_front_is_Some|].
  split; [apply wait_loop_gives_up, take_back_is_Some|].
  apply wait_loop_blocked, take_back_is_Some.
Qed.

(** X13.  The pops without a flag never return the empty optional: after
    any wake-ups they have either returned an element or are still waiting on
    an empty ring. *)
Theorem unflagged_wait_outcomes
    (T : Type) (trace : list (wakeup T)) (r : Ring T) :
  match pop_front_wait_forever trace r with
  | Returned v _ => is_Some v
  | Blocked r' => elems r' = []
  end
  ∧ match pop_back_wait_forever trace r with
    | Returned v _ => is_Some v
    | Blocked r' => elems r' = []
    end.
Proof.
  split;
    [apply pop_front_wait_forever_outcome | apply pop_back_wait_forever_outcome].
Qed.

(** X14.  A flagged pop that has returned is not affected by what happens
    later, and one that is still waiting after the wake-ups [trace] continues
    on the ring it waits on exactly as a fresh call would. *)
Theorem flagged_wait_resumes
    (T : Type) (trace rest : list (wakeup T)) (r : Ring T) :
  pop_front_wait (trace ++ rest) r
  = resume (pop_front_wait trace r) (pop_front_wait rest)
  ∧ pop_back_wait (trace ++ rest) r
    = resume (pop_back_wait trace r) (pop_back_wait rest).
Proof. split; [apply pop_front_wait_app | apply pop_back_wait_app]. Qed.

(** ** Copy assignment composed *)

Section copy_assign_more.
Context {T : Type}.
Implicit Types (σ : gmap nat (Ring T)) (a b : Ring T) (this that : nat).

Lemma copy_assign_that this that σ b :
  σ !! that = Some b → copy_assign this that σ !! that = Some b.
Proof.
  intros Hb. destruct (decide (this = that)) as [->|Hne].
  - by rewrite copy_assign_self.
  - by rewrite copy_assign_frame.
Qed.

Lemma copy_assign_twice this that σ :
  copy_assign this that (copy_assign this that σ) = copy_assign this that σ.
Proof.
  destruct (decide (this = that)) as [->|Hne]; [by rewrite !copy_assign_self|].
  unfold copy_assign at 2 3. rewrite decide_False by done.
  destruct (σ !! this) as [a|] eqn:Ha; [|unfold copy_assign;
    by rewrite decide_False, Ha by done].
  destruct (σ !! that) as [b|] eqn:Hb; [|unfold copy_assign;
    by rewrite decide_False, Ha, Hb by done].
  unfold copy_assign. rewrite decide_False by done.
  rewrite lookup_insert_eq, lookup_insert_ne, Hb by done. simpl.
  apply insert_insert_eq.
Qed.

Lemma copy_assign_back this that σ :
  copy_assign that this (copy_assign this that σ) = copy_assign this that σ.
Proof.
  destruct (decide (this = that)) as [->|Hne]; [by rewrite !copy_assign_self|].
  unfold copy_assign at 2 3. rewrite decide_False by done.
  destruct (σ !! this) as [a|] eqn:Ha; [|unfold copy_assign;
    rewrite decide_False, Ha by done; by destruct (σ !! that)].
  destruct (σ !! that) as [b|] eqn:Hb; [|unfold copy_assign;
    by rewrite decide_False, Hb by done].
  unfold copy_assign. rewrite decide_False by done.
  rewrite lookup_insert_eq, lookup_insert_ne, Hb by done. simpl.
  rewrite Ring_eta. apply insert_id. by rewrite lookup_insert_ne.
Qed.
End copy_assign_more.

(** X15.  Copy assignment composed: [a = b] twice is [a = b] once, and
    [b = a] after [a = b] changes nothing more, because [b] already holds the
    elements it is given and keeps its own capacity.  The source ring [b] is
    never changed by [a = b]. *)
Theorem copy_assign_composes
    (T : Type) (σ : gmap nat (Ring T)) (this that : nat) (b : Ring T) :
  σ !! that = Some b →
  copy_assign this that σ !! that = Some b
  ∧ copy_assign this that (copy_assign this that σ) = copy_assign this that σ
  ∧ copy_assign that this (copy_assign this that σ) = copy_assign this that σ.
Proof.
  intros Hb. split; [by apply copy_assign_that|].
  split; [apply copy_assign_twice | apply copy_assign_back].
Qed.

(** X15 with [a] = 1,2 at address 0 and [b] = 7,8,9 at address 1. *)
Lemma copy_assign_composes_witness :
  copy_assign 0 1 (<[1 := Ring_list [7; 8; 9]]> {[0 := Ring_list [1; 2]]}) !! 1
  = Some (Ring_list [7; 8; 9]).
Proof.
  apply (copy_assign_composes nat
           (<[1 := Ring_list [7; 8; 9]]> {[0 := Ring_list [1; 2]]}) 0 1).
  vm_compute. reflexivity.
Defined.

(** ** Which calls restore the bound *)

(** X16.  A push or a pop never brings an overfull ring back within its
    capacity: after a push the ring is within its capacity exactly when it
    was before, and a pop lowers the count by one at most.  [shrink_to_fit]
    and [assign] always leave the ring within its capacity, whatever it held
    before, and [assign] never lowers the capacity. *)
Theorem bound_kept_and_restored
    (T : Type) (v : T) (range : list T) (r : Ring T) :
  (bounded (push_front v r) ↔ bounded r)
  ∧ (bounded (push_back v r) ↔ bounded r)
  ∧ size (pop_front r).2 = size r - 1
  ∧ size (pop_back r).2 = size r - 1
  ∧ max_size (pop_front r).2 = max_size r
  ∧ max_size (pop_back r).2 = max_size r
  ∧ bounded (shrink_to_fit r)
  ∧ bounded (assign range r)
  ∧ max_size r ≤ max_size (assign range r).
Proof.
  unfold bounded.
  rewrite push_front_size, push_back_size, push_front_max_size,
    push_back_max_size, pop_front_size, pop_back_size.
  split; [case_decide; lia|]. split; [case_decide; lia|].
  split; [done|]. split; [done|].
  split; [unfold pop_front; by destruct (deque.empty (elems r))|].
  split; [unfold pop_back; by destruct (deque.empty (elems r))|].
  split; [apply shrink_to_fit_bounded|].
  split; [apply assign_bounded|].
  unfold assign, max_size. simpl. case_decide; lia.
Qed.
